(** * Lead pipelines of landing_page_gois: a shallow embedding

    The two Python programs, [init_leads.py] (directory places, website
    crawl, e-mail choice, lead score, dedup and rank) and
    [leads_detectados.py] (weighted text signals over job postings), are
    translated function by function.

    Text.  A Python [str] is a sequence of Unicode code points; it is
    modelled as a list of code points ([N]).  [str.lower] and the word
    class of [\b] are transcribed exactly for the code points below 256;
    a code point above that range is taken as caseless and as a non-word
    character, which is what Python does for the only such character the
    sources mention, the euro sign.  White space and the character classes
    of the e-mail pattern are transcribed for every code point.

    Regular expressions.  [re] patterns are values of a small syntax tree
    with a backtracking matcher; since the sources only test whether a
    match exists, the order in which alternatives are tried is immaterial.

    Floats.  [score_lead] computes with binary64 floats; the model uses the
    kernel's primitive floats, and [round(x, 2)] is computed on the exact
    binary value. *)

From Stdlib Require Import String Ascii.
From Stdlib Require Import NArith ZArith List Bool Lia.
From Stdlib Require Import Permutation Sorted.
From Stdlib Require Import PrimFloat Uint63 FloatOps SpecFloat.
Import ListNotations.

#[local] Set Warnings "-inexact-float".

(* ================================================================== *)
(** ** Python strings *)
(* ================================================================== *)

Module PyStr.

Local Open Scope N_scope.

Definition pystr := list N.

(** An ASCII literal as a Python string. *)
Definition py (s : string) : pystr :=
  map N_of_ascii (list_ascii_of_string s).

Definition o_acute : N := 243.   (* U+00F3 *)
Definition i_acute : N := 237.   (* U+00ED *)
Definition euro : N := 8364.     (* U+20AC *)

Definition between (lo hi c : N) : bool := (lo <=? c) && (c <=? hi).

(** [str.lower], one code point at a time. *)
Definition lower_char (c : N) : N :=
  if between 65 90 c || (between 192 222 c && negb (c =? 215))
  then c + 32 else c.

Definition lower (s : pystr) : pystr := map lower_char s.

(** [str.isspace], which is also what [\s] and [str.strip] test. *)
Definition is_space (c : N) : bool :=
  between 9 13 c || between 28 32 c || (c =? 133) || (c =? 160) ||
  (c =? 5760) || between 8192 8202 c || (c =? 8232) || (c =? 8233) ||
  (c =? 8239) || (c =? 8287) || (c =? 12288).

(** The word characters of [\w] and [\b]: alphanumerics and underscore. *)
Definition is_word (c : N) : bool :=
  between 48 57 c || between 65 90 c || (c =? 95) || between 97 122 c ||
  (c =? 170) || (c =? 178) || (c =? 179) || (c =? 181) || (c =? 185) ||
  (c =? 186) || between 188 190 c || between 192 214 c ||
  between 216 246 c || between 248 255 c.

Fixpoint lstrip (s : pystr) : pystr :=
  match s with
  | c :: s' => if is_space c then lstrip s' else s
  | [] => []
  end.

Definition rstrip (s : pystr) : pystr := rev (lstrip (rev s)).

Definition strip (s : pystr) : pystr := rstrip (lstrip s).

Fixpoint eqb (a b : pystr) : bool :=
  match a, b with
  | [], [] => true
  | x :: a', y :: b' => (x =? y) && eqb a' b'
  | _, _ => false
  end.

(** Truth value of a string: [if s] holds for the non-empty ones. *)
Definition truthy (s : pystr) : bool :=
  match s with [] => false | _ => true end.

Fixpoint startswith (s p : pystr) {struct p} : bool :=
  match p, s with
  | [], _ => true
  | x :: p', y :: s' => (x =? y) && startswith s' p'
  | _ :: _, [] => false
  end.

(** [p in s]: [p] occurs in [s] as a run of consecutive characters. *)
Fixpoint contains (p s : pystr) : bool :=
  startswith s p ||
  match s with
  | [] => false
  | _ :: s' => contains p s'
  end.

(** [s.split(sep)] for a one-character separator: the pieces between the
    occurrences of [sep], never an empty list. *)
Fixpoint split (sep : N) (s : pystr) : list pystr :=
  match s with
  | [] => [[]]
  | c :: s' =>
      if c =? sep then [] :: split sep s'
      else match split sep s' with
           | piece :: rest => (c :: piece) :: rest
           | [] => [[c]]
           end
  end.

(** [sep.join(parts)]. *)
Fixpoint join (sep : pystr) (parts : list pystr) : pystr :=
  match parts with
  | [] => []
  | [p] => p
  | p :: rest => p ++ sep ++ join sep rest
  end.

(** [xs[-n:]]: the last [n] elements, all of them when there are fewer. *)
Definition last_n {A : Type} (n : nat) (xs : list A) : list A :=
  skipn (length xs - n) xs.

(** Comparison of strings, code point by code point, as [<] and [sorted]
    use it. *)
Fixpoint compare (a b : pystr) : comparison :=
  match a, b with
  | [], [] => Eq
  | [], _ :: _ => Lt
  | _ :: _, [] => Gt
  | x :: a', y :: b' =>
      match N.compare x y with
      | Eq => compare a' b'
      | o => o
      end
  end.

Definition leb (a b : pystr) : bool :=
  match compare a b with Gt => false | _ => true end.

Definition ltb (a b : pystr) : bool :=
  match compare a b with Lt => true | _ => false end.

Definition endswith (s p : pystr) : bool := startswith (rev s) (rev p).

(** A Python [set] of strings is kept as the list of its elements, each
    once, in the order they were added. *)
Definition in_set (x : pystr) (xs : list pystr) : bool :=
  existsb (eqb x) xs.

Definition set_add (xs : list pystr) (x : pystr) : list pystr :=
  if in_set x xs then xs else xs ++ [x].

Definition set_union (xs ys : list pystr) : list pystr :=
  fold_left set_add ys xs.

Definition set_of (xs : list pystr) : list pystr := set_union [] xs.

(** Stable sorting by insertion, for [sorted] and [sort_values]. *)
Section Sorting.
Context {A : Type}.
Variable le : A -> A -> bool.

Fixpoint insert_sorted (x : A) (l : list A) : list A :=
  match l with
  | [] => [x]
  | y :: l' => if le x y then x :: l else y :: insert_sorted x l'
  end.

Fixpoint sort_by (l : list A) : list A :=
  match l with
  | [] => []
  | x :: l' => insert_sorted x (sort_by l')
  end.
End Sorting.

Definition sorted (l : list pystr) : list pystr := sort_by leb l.

End PyStr.

(* ================================================================== *)
(** ** Regular expressions *)
(* ================================================================== *)

Module Re.

Import PyStr.

(** The constructs the sources' patterns are written with. *)
Inductive regex : Type :=
| Lit (l : pystr)                 (* a run of literal characters *)
| Cls (f : N -> bool)             (* one character of a class *)
| Bnd                             (* \b *)
| Seq (a b : regex)               (* ab *)
| Alt (a b : regex)               (* a|b *)
| Opt (a : regex)                 (* a? *)
| Rep (n : nat) (f : N -> bool).  (* [class]{n,} *)

(** A position in the subject: the character before it, if any, and the
    text from it on. *)
Definition word_before (prev : option N) : bool :=
  match prev with Some c => is_word c | None => false end.

Definition word_after (s : pystr) : bool :=
  match s with c :: _ => is_word c | [] => false end.

Definition at_boundary (prev : option N) (s : pystr) : bool :=
  xorb (word_before prev) (word_after s).

Section Matcher.

(** What remains to be matched after the current node. *)
Variable k : option N -> pystr -> bool.

Fixpoint eat (l : pystr) (prev : option N) (s : pystr) : bool :=
  match l with
  | [] => k prev s
  | x :: l' =>
      match s with
      | c :: s' => N.eqb c x && eat l' (Some c) s'
      | [] => false
      end
  end.

Fixpoint many (f : N -> bool) (prev : option N) (s : pystr) : bool :=
  k prev s ||
  match s with
  | c :: s' => f c && many f (Some c) s'
  | [] => false
  end.

Fixpoint at_least (n : nat) (f : N -> bool) (prev : option N) (s : pystr)
  : bool :=
  match n with
  | O => many f prev s
  | S n' =>
      match s with
      | c :: s' => f c && at_least n' f (Some c) s'
      | [] => false
      end
  end.

End Matcher.

Fixpoint run (r : regex) (k : option N -> pystr -> bool)
  (prev : option N) (s : pystr) : bool :=
  match r with
  | Lit l => eat k l prev s
  | Cls f => match s with
             | c :: s' => f c && k (Some c) s'
             | [] => false
             end
  | Bnd => at_boundary prev s && k prev s
  | Seq a b => run a (run b k) prev s
  | Alt a b => run a k prev s || run b k prev s
  | Opt a => run a k prev s || k prev s
  | Rep n f => at_least k n f prev s
  end.

Definition anything (_ : option N) (_ : pystr) : bool := true.

Definition at_end (_ : option N) (s : pystr) : bool :=
  match s with [] => true | _ => false end.

Fixpoint search_from (r : regex) (prev : option N) (s : pystr) : bool :=
  run r anything prev s ||
  match s with
  | c :: s' => search_from r (Some c) s'
  | [] => false
  end.

(** [re.search(r, s)] and [r.fullmatch(s)], as truth values. *)
Definition search (r : regex) (s : pystr) : bool := search_from r None s.

Definition fullmatch (r : regex) (s : pystr) : bool := run r at_end None s.

(** Concatenation and alternation of several parts. *)
Fixpoint seq (rs : list regex) : regex :=
  match rs with
  | [] => Lit []
  | [r] => r
  | r :: rs' => Seq r (seq rs')
  end.

Fixpoint alt (rs : list regex) : regex :=
  match rs with
  | [] => Cls (fun _ => false)
  | [r] => r
  | r :: rs' => Alt r (alt rs')
  end.

Definition lit (s : string) : regex := Lit (py s).

End Re.

(* ================================================================== *)
(** ** leads_detectados.py *)
(* ================================================================== *)

Module LeadsDetectados.

Import PyStr Re.
Local Open Scope Z_scope.

(** "ción" and the like: ASCII text with one accented o. *)
Definition with_o (a b : string) : regex := Lit (py a ++ [o_acute] ++ py b).

Definition o_or_oacute : regex := Alt (lit "o") (Lit [o_acute]).

Definition POSITIVE_SIGNALS : list (regex * Z) :=
  [ (seq [Bnd; lit "proceso"; Opt (lit "s"); Bnd], 3);
    (seq [Bnd; lit "sistema"; Opt (lit "s"); Bnd], 3);
    (seq [Bnd; lit "operaci"; o_or_oacute; lit "n"; Opt (lit "es"); Bnd], 3);
    (seq [Bnd; lit "flujo"; Opt (lit "s"); Bnd], 3);
    (seq [Bnd; lit "automatiza"; Alt (lit "r") (with_o "ci" "n"); Bnd], 3);
    (seq [Bnd; lit "integraci"; o_or_oacute; lit "n"; Opt (lit "es"); Bnd], 5);
    (seq [Bnd; lit "api"; Opt (lit "s"); Bnd], 4);
    (seq [Bnd; lit "crm"; Bnd], 4);
    (seq [Bnd; lit "erp"; Bnd], 4);
    (seq [Bnd; lit "base de datos"; Bnd], 4);
    (seq [Bnd; lit "postgre"; Opt (Alt (lit "s") (lit "sql")); Bnd], 4);
    (seq [Bnd; lit "backend"; Bnd], 3);
    (seq [Bnd; lit "dato"; Opt (lit "s"); Bnd], 3);
    (Alt (seq [Bnd; lit "migrar"]) (seq [with_o "migraci" "n"; Bnd]), 4);
    (seq [Bnd; lit "sistema actual"; Bnd], 5) ].

(** "100\s?€" and its siblings. *)
Definition euros (amount : string) : regex :=
  seq [lit amount; Opt (Cls is_space); Lit [euro]].

Definition NEGATIVE_SIGNALS : list (regex * Z) :=
  [ (seq [Bnd; lit "wordpress"; Bnd], -5);
    (seq [Bnd; lit "wix"; Bnd], -5);
    (seq [Bnd; lit "shopify"; Bnd], -4);
    (seq [Bnd; lit "landing"; Bnd], -4);
    (seq [Bnd; lit "chatbot"; Bnd], -4);
    (seq [Bnd; lit "bot"; Bnd], -3);
    (seq [Bnd; lit "instagram"; Bnd], -3);
    (seq [Bnd; lit "redes sociales"; Bnd], -3);
    (seq [Bnd; lit "seo"; Bnd], -3);
    (seq [Bnd; lit "marketing"; Bnd], -3);
    (alt [Seq Bnd (euros "100"); euros "200"; Seq (euros "300") Bnd], -8);
    (Alt (seq [Bnd; lit "solo prompt"]) (seq [lit "prompt"; Bnd]), -6);
    (alt [seq [Bnd; lit "n8n"]; lit "zapier"; seq [lit "make"; Bnd]], -3) ].

(** One turn of [for pattern, value in SIGNALS: if re.search(...): score += value]. *)
Definition add_signal (t : pystr) (score : Z) (rule : regex * Z) : Z :=
  let '(pattern, value) := rule in
  if search pattern t then score + value else score.

Definition compute_score (text : pystr) : Z :=
  let t := lower text in
  let score := 0 in
  let score := fold_left (add_signal t) POSITIVE_SIGNALS score in
  let score := fold_left (add_signal t) NEGATIVE_SIGNALS score in
  score.

Definition label_failed : pystr :=
  py "Intento previo fallido / mala implementaci" ++ [o_acute] ++ py "n".
Definition label_integration : pystr :=
  py "Necesidad de integrar sistemas o datos".
Definition label_manual : pystr :=
  py "Proceso manual cr" ++ [i_acute] ++ py "tico / dependencia de Excel".
Definition label_leads : pystr :=
  py "Gesti" ++ [o_acute] ++ py "n ineficiente de leads o ventas".
Definition label_reporting : pystr :=
  py "Reporting manual o inexistente".
Definition label_unspecified : pystr :=
  py "Problema operativo no especificado (requiere revisi" ++ [o_acute]
  ++ py "n)".

(** The patterns of the five tests of [infer_problem], in their order. *)
Definition pattern_failed : regex :=
  alt [lit "no funcion"; lit "fall"; lit "reabrimos"; lit "mal implementado"].
Definition pattern_integration : regex :=
  alt [lit "integraci"; lit "api"; lit "webhook"].
Definition pattern_manual : regex := alt [lit "excel"; lit "manual"].
Definition pattern_leads : regex := alt [lit "leads"; lit "crm"; lit "pipeline"].
Definition pattern_reporting : regex := alt [lit "report"; lit "dashboard"].

Definition infer_problem (text : pystr) : pystr :=
  let t := lower text in
  if search pattern_failed t then label_failed
  else if search pattern_integration t then label_integration
  else if search pattern_manual t then label_manual
  else if search pattern_leads t then label_leads
  else if search pattern_reporting t then label_reporting
  else label_unspecified.

(** [full_text = f"{title} {description}"] in [scrape_html]. *)
Definition full_text (title description : pystr) : pystr :=
  title ++ py " " ++ description.

(** [df = df[df["score_dolor"] >= 5]] in [main]. *)
Definition passes_filter (score_dolor : Z) : bool := 5 <=? score_dolor.

End LeadsDetectados.

(* ================================================================== *)
(** ** init_leads.py: e-mail classification and lead score *)
(* ================================================================== *)

Module InitLeads.

Import PyStr Re.

Definition PERSONAL_DOMAINS : list pystr :=
  map py [ "gmail.com"; "hotmail.com"; "outlook.com"; "yahoo.com";
           "live.com"; "icloud.com"; "aol.com"; "proton.me";
           "protonmail.com"; "gmx.com"; "gmx.es"; "zoho.com" ]%string.

Local Open Scope N_scope.

(** [A-Z] under [re.IGNORECASE]: the 52 ASCII letters and the four other
    letters whose case mapping falls in the range. *)
Definition letter_ic (c : N) : bool :=
  between 65 90 c || between 97 122 c ||
  (c =? 304) || (c =? 305) || (c =? 383) || (c =? 8490).

Definition digit09 (c : N) : bool := between 48 57 c.

(** [A-Z0-9._%+-] *)
Definition local_class (c : N) : bool :=
  letter_ic c || digit09 c ||
  (c =? 46) || (c =? 95) || (c =? 37) || (c =? 43) || (c =? 45).

(** [A-Z0-9.-] *)
Definition host_class (c : N) : bool :=
  letter_ic c || digit09 c || (c =? 46) || (c =? 45).

Definition EMAIL_REGEX : regex :=
  seq [Rep 1 local_class; lit "@"; Rep 1 host_class; lit ".";
       Rep 2 letter_ic].

Definition at_sign : N := 64.
Definition dot : N := 46.

Definition is_corporate_email (email : pystr) : bool :=
  let email := lower (strip email) in
  if negb (fullmatch EMAIL_REGEX email) then false
  else
    let domain := last (split at_sign email) [] in
    if in_set domain PERSONAL_DOMAINS then false
    else
      let parts := split dot domain in
      if (2 <=? length parts)%nat
         && in_set (join [dot] (last_n 2 parts)) PERSONAL_DOMAINS
      then false
      else true.

Definition no_encontrado : pystr := py "no_encontrado".
Definition corporativo : pystr := py "corporativo".
Definition personal : pystr := py "personal".

Definition classify_email (email : pystr) : pystr :=
  if negb (truthy email) then no_encontrado
  else if is_corporate_email email then corporativo else personal.

(** [\d] within the modelled range, and [re.sub(r"[^\d+]", "", phone)]. *)
Definition clean_phone (phone : pystr) : pystr :=
  if negb (truthy phone) then []
  else filter (fun c => digit09 c || (c =? 43)) phone.

(** The keys of the dictionary [row] that [main] builds, before the score
    is added to it. *)
Record row : Type := {
  empresa : pystr;
  web : pystr;
  email : pystr;
  email_tipo : pystr;
  telefono : pystr;
  direccion : pystr;
  ciudad : pystr;
  provincia : pystr;
  pais : pystr;
  categoria : pystr;
  fuente : pystr;
  query : pystr;
  fecha_extraccion : pystr
}.

Local Open Scope float_scope.

(** [min(a, b)] of Python: [b] only when it is strictly smaller. *)
Definition py_min (a b : float) : float := if b <? a then b else a.

(** The exact value of a finite float is [m * 2^e]; its hundredths,
    rounded to the nearest integer, ties to even. *)
Definition nearest_hundredths (m : positive) (e : Z) : Z :=
  let n := (Z.pos m * 100)%Z in
  if (0 <=? e)%Z then (n * 2 ^ e)%Z
  else
    let d := (2 ^ (- e))%Z in
    let q := (n / d)%Z in
    let r := (n mod d)%Z in
    match (2 * r ?= d)%Z with
    | Lt => q
    | Gt => (q + 1)%Z
    | Eq => if Z.even q then q else (q + 1)%Z
    end.

(** The float nearest to [k / 100], for [k] below 2^53. *)
Definition of_hundredths (k : Z) : float :=
  of_uint63 (Uint63.of_Z k) / 100.

(** [round(x, 2)]: the decimal with two places nearest to the exact value
    of [x], read back as a float.  From 2^46 on every float is its own
    rounding, and so are zeros, infinities and NaN. *)
Definition round2 (x : float) : float :=
  match Prim2SF x with
  | S754_finite s m e =>
      if 0x1p46 <=? abs x then x
      else
        let r := of_hundredths (nearest_hundredths m e) in
        if s then - r else r
  | _ => x
  end.

Definition score_lead (r : row) : float :=
  let score := 0 in
  let score := if truthy (web r) then score + 0.3 else score in
  let score :=
    if PyStr.eqb (classify_email (email r)) corporativo
    then score + 0.3 else score in
  let score := if truthy (telefono r) then score + 0.2 else score in
  let score := if truthy (ciudad r) then score + 0.1 else score in
  let score := if truthy (categoria r) then score + 0.1 else score in
  round2 (py_min score 1).

(** The row as it enters the data frame, with its score. *)
Record lead : Type := {
  fields : row;
  score_inicial : float
}.

(* ------------------------------------------------------------------ *)
(** *** The world outside the program *)

(** One result of the text search; [None] when it has no "place_id". *)
Record item : Type := { place_id : option pystr }.

(** One entry of "address_components". *)
Record component : Type := {
  comp_types : list pystr;
  long_name : pystr
}.

(** The result of Place Details; a missing key reads as the default the
    program gives to [get]. *)
Record details : Type := {
  d_name : pystr;
  formatted_address : pystr;
  formatted_phone_number : pystr;
  website : pystr;
  types : list pystr;
  address_components : list component
}.

(** The services and libraries [main] calls, and the order in which Python
    happens to iterate over a set. *)
Record world : Type := {
  API_KEY : pystr;
  places_text_search : pystr -> list item;
  place_details : pystr -> option details;   (* [None]: the empty dict *)
  urlparse : pystr -> pystr * pystr;         (* scheme, netloc *)
  urljoin : pystr -> pystr -> pystr;
  registered_domain : pystr -> pystr;        (* tldextract; empty if none *)
  fetch_url : pystr -> pystr;                (* the page, empty on failure *)
  emails_in : pystr -> list pystr;           (* [found] for a fetched page *)
  set_iter : list pystr -> list pystr;       (* iteration order of a set *)
  utc_today : pystr
}.

(** What is known of set iteration: every element is visited once. *)
Definition fair_iteration (W : world) : Prop :=
  forall l : list pystr, Permutation (set_iter W l) l.

Definition QUERIES : list pystr :=
  [ py "empresa de mantenimiento Madrid";
    py "consultor" ++ [i_acute] ++ py "a de procesos Madrid";
    py "servicios industriales Getafe" ].

Definition find_candidate_pages (W : world) (base_url : pystr)
  : list pystr :=
  let paths := map py [ ""; "contact"; "contacto"; "contact-us";
                        "sobre-nosotros"; "aviso-legal"; "legal";
                        "privacy"; "privacidad" ]%string in
  let base := if endswith base_url (py "/") then base_url
              else base_url ++ py "/" in
  let unique_urls :=
    fold_left (fun unique_urls p =>
                 let u := urljoin W base p in
                 if in_set u unique_urls then unique_urls
                 else unique_urls ++ [u])
              paths [] in
  firstn 5 unique_urls.

Definition normalize_website (W : world) (url : pystr) : pystr :=
  if negb (truthy url) then []
  else
    let url := strip url in
    let url := if negb (startswith url (py "http"))
               then py "http://" ++ url else url in
    let '(scheme, netloc) := urlparse W url in
    scheme ++ py "://" ++ netloc.

Fixpoint address_component (comps : list component) (typ : pystr) : pystr :=
  match comps with
  | [] => []
  | c :: rest =>
      if in_set typ (comp_types c) then long_name c
      else address_component rest typ
  end.

(** [a or b] on strings. *)
Definition py_or (a b : pystr) : pystr := if truthy a then a else b.

(* ------------------------------------------------------------------ *)
(** *** Crawling a website and choosing one address *)

(** The loop over the candidate pages.  It returns the set [emails] and
    the pages handed to [fetch_url], in order. *)
Fixpoint crawl (W : world) (pages : list pystr) (emails : list pystr)
  : list pystr * list pystr :=
  match pages with
  | [] => (emails, [])
  | page_url :: rest =>
      let html := fetch_url W page_url in
      if negb (truthy html) then
        let '(emails', log) := crawl W rest emails in
        (emails', page_url :: log)                        (* continue *)
      else
        let found := emails_in W html in
        let emails := set_union emails found in
        let corp_emails :=
          match emails with
          | [] => []
          | _ :: _ => filter is_corporate_email (set_iter W emails)
          end in
        match corp_emails with
        | _ :: _ => (set_of corp_emails, [page_url])      (* break *)
        | [] =>
            let '(emails', log) := crawl W rest emails in
            (emails', page_url :: log)
        end
  end.

Definition priority : list pystr :=
  map py [ "info@"; "contact"; "contacto"; "comercial"; "ventas";
           "admin@" ]%string.

Definition chosen_truthy (chosen : option pystr) : bool :=
  match chosen with Some e => truthy e | None => false end.

(** [for e in emails: if p in e.lower(): chosen = e; break] *)
Fixpoint scan (p : pystr) (emails : list pystr) (chosen : option pystr)
  : option pystr :=
  match emails with
  | [] => chosen
  | e :: rest =>
      if contains p (lower e) then Some e else scan p rest chosen
  end.

(** [for p in priority: ...; if chosen: break] *)
Fixpoint by_priority (ps : list pystr) (emails : list pystr)
  (chosen : option pystr) : option pystr :=
  match ps with
  | [] => chosen
  | p :: ps' =>
      let chosen := scan p emails chosen in
      if chosen_truthy chosen then chosen
      else by_priority ps' emails chosen
  end.

(** [email_found = chosen or sorted(emails)[0]], for the keywords [ps];
    [order] is the order in which the set is iterated. *)
Definition select_with (ps : list pystr) (order : list pystr -> list pystr)
  (emails : list pystr) : pystr :=
  let chosen := by_priority ps (order emails) None in
  match chosen with
  | Some e => if truthy e then e else hd [] (sorted emails)
  | None => hd [] (sorted emails)
  end.

Definition select_email (W : world) (emails : list pystr) : pystr :=
  select_with priority (set_iter W) emails.

(* ------------------------------------------------------------------ *)
(** *** The main loop *)

Record state : Type := {
  all_rows : list lead;
  seen_domains : list pystr;
  seen_places : list pystr;
  fetched : list pystr      (* every page handed to [fetch_url] so far *)
}.

Definition initial : state :=
  {| all_rows := []; seen_domains := []; seen_places := []; fetched := [] |}.

(** The website part of one place: the chosen address, its tag, and the
    state after the crawl, if there is one. *)
Definition enrich (W : world) (st : state) (site : pystr)
  : pystr * pystr * state :=
  let email_found : pystr := [] in
  let email_tipo := no_encontrado in
  if negb (truthy site) then (email_found, email_tipo, st)
  else
    let domain := registered_domain W site in
    if truthy domain && in_set domain (seen_domains st)
    then (email_found, email_tipo, st)                    (* pass *)
    else
      let seen := if truthy domain then set_add (seen_domains st) domain
                  else seen_domains st in
      let '(emails, log) := crawl W (find_candidate_pages W site) [] in
      let st' := {| all_rows := all_rows st; seen_domains := seen;
                    seen_places := seen_places st;
                    fetched := fetched st ++ log |} in
      match emails with
      | [] => (email_found, email_tipo, st')
      | _ :: _ =>
          let email_found := select_email W emails in
          (email_found, classify_email email_found, st')
      end.

(** The body of [for it in items]. *)
Definition process_item (W : world) (q : pystr) (st : state) (it : item)
  : state :=
  match place_id it with
  | None => st
  | Some pid =>
      if negb (truthy pid) || in_set pid (seen_places st) then st
      else
        let st := {| all_rows := all_rows st;
                     seen_domains := seen_domains st;
                     seen_places := set_add (seen_places st) pid;
                     fetched := fetched st |} in
        match place_details W pid with
        | None => st
        | Some d =>
            let name := strip (d_name d) in
            let address := strip (formatted_address d) in
            let phone := clean_phone (formatted_phone_number d) in
            let website_raw := website d in
            let site := if truthy website_raw
                        then normalize_website W website_raw else [] in
            let comps := address_components d in
            let city := py_or (address_component comps (py "locality"))
                              (address_component comps (py "postal_town")) in
            let admin_area :=
              address_component comps (py "administrative_area_level_2") in
            let country := address_component comps (py "country") in
            let cat := match types d with
                       | [] => []
                       | _ :: _ => join (py ", ") (types d)
                       end in
            let '(email_found, email_tipo, st) := enrich W st site in
            let r := {| empresa := name; web := site;
                        email := email_found; email_tipo := email_tipo;
                        telefono := phone; direccion := address;
                        ciudad := city; provincia := admin_area;
                        pais := country; categoria := cat;
                        fuente := py "google_places"; query := q;
                        fecha_extraccion := utc_today W |} in
            let l := {| fields := r; score_inicial := score_lead r |} in
            {| all_rows := all_rows st ++ [l];
               seen_domains := seen_domains st;
               seen_places := seen_places st;
               fetched := fetched st |}
        end
  end.

(** The body of [for q in QUERIES]. *)
Definition process_query (W : world) (st : state) (q : pystr) : state :=
  fold_left (process_item W q) (places_text_search W q) st.

Definition collect (W : world) (queries : list pystr) : state :=
  fold_left (process_query W) queries initial.

(* ------------------------------------------------------------------ *)
(** *** Dedup and rank *)

(** [sort_values(["score_inicial", "email_tipo"], ascending=[False, True])]:
    [a] may stand before [b]. *)
Definition ranks_before (a b : lead) : bool :=
  (score_inicial b <? score_inicial a) ||
  ((score_inicial a =? score_inicial b) &&
   PyStr.leb (email_tipo (fields a)) (email_tipo (fields b))).

Definition sort_values (rows : list lead) : list lead :=
  sort_by ranks_before rows.

(** The columns of [subset]. *)
Definition company_key (r : lead) : pystr * pystr :=
  (empresa (fields r), web (fields r)).

Definition same_key (a b : pystr * pystr) : bool :=
  PyStr.eqb (fst a) (fst b) && PyStr.eqb (snd a) (snd b).

(** [drop_duplicates(subset=["empresa", "web"])]: a row goes when its
    pair has been met in a row above it; [seen] are the pairs met. *)
Fixpoint drop_from (seen : list (pystr * pystr)) (rows : list lead)
  : list lead :=
  match rows with
  | [] => []
  | r :: rest =>
      if existsb (same_key (company_key r)) seen then drop_from seen rest
      else r :: drop_from (company_key r :: seen) rest
  end.

Definition drop_duplicates (rows : list lead) : list lead :=
  drop_from [] rows.

Definition dedup_and_rank (rows : list lead) : list lead :=
  drop_duplicates (sort_values rows).

(** How a run of [main] ends. *)
Inductive outcome : Type :=
| MissingKey                       (* SystemExit *)
| NoLeads                          (* warning, nothing written *)
| Exported (rows : list lead).     (* leads.xlsx *)

Definition main (W : world) : outcome :=
  if negb (truthy (API_KEY W)) then MissingKey
  else
    match all_rows (collect W QUERIES) with
    | [] => NoLeads
    | rows => Exported (dedup_and_rank rows)
    end.

End InitLeads.

(* ================================================================== *)
(** ** What the specification says, in its own words *)
(* ================================================================== *)

Module Spec.

Import PyStr Re.

(** A rule weighs in with its weight when its pattern is found, with
    nothing otherwise. *)
Definition contribution (t : pystr) (rule : regex * Z) : Z :=
  if search (fst rule) t then snd rule else 0%Z.

Definition total (rules : list (regex * Z)) (t : pystr) : Z :=
  fold_right Z.add 0%Z (map (contribution t) rules).

Import InitLeads.

(** The posting of the end-to-end example. *)
Definition has_corporate_email (r : row) : bool :=
  PyStr.eqb (classify_email (email r)) corporativo.

(** The five amounts of the lead score, as floats and as hundredths. *)
Definition amount (present : bool) (x : float) : float :=
  if present then x else 0%float.

Definition clamp (x : float) : float :=
  if (x <? 0)%float then 0%float
  else if (1 <? x)%float then 1%float else x.

Definition score (r : row) : float :=
  round2
    (clamp (0 + amount (truthy (web r)) 0.3
              + amount (has_corporate_email r) 0.3
              + amount (truthy (telefono r)) 0.2
              + amount (truthy (ciudad r)) 0.1
              + amount (truthy (categoria r)) 0.1)%float).

Definition hundredths (present : bool) (k : Z) : Z :=
  if present then k else 0%Z.

Definition points (r : row) : Z :=
  (hundredths (truthy (web r)) 30
   + hundredths (has_corporate_email r) 30
   + hundredths (truthy (telefono r)) 20
   + hundredths (truthy (ciudad r)) 10
   + hundredths (truthy (categoria r)) 10)%Z.

(** [r'] is [r] with some of its absent scoring fields filled in. *)
Definition filled (old new : pystr) : Prop := old = [] \/ new = old.

Definition fills (r r' : row) : Prop :=
  filled (web r) (web r') /\ filled (email r) (email r')
  /\ filled (telefono r) (telefono r') /\ filled (ciudad r) (ciudad r')
  /\ filled (categoria r) (categoria r').

(** The address pattern: local characters, "@", host characters, a dot
    and a last label of two letters or more. *)
Definition valid (e : pystr) : Prop :=
  exists l h t : pystr,
    e = l ++ [at_sign] ++ h ++ [dot] ++ t
    /\ l <> [] /\ forallb local_class l = true
    /\ h <> [] /\ forallb host_class h = true
    /\ (2 <= length t)%nat /\ forallb letter_ic t = true.

(** The character before the position reached after reading [a]. *)
Definition walk (prev : option N) (a : pystr) : option N :=
  fold_left (fun _ c => Some c) a prev.

Definition occurs (c : N) (s : pystr) : bool := existsb (N.eqb c) s.

(** Everything after the final [sep]; all of [s] when it has none. *)
Fixpoint after_last (sep : N) (s : pystr) : pystr :=
  match s with
  | [] => []
  | c :: s' =>
      if occurs sep s' then after_last sep s'
      else if (c =? sep)%N then s' else s
  end.

Definition domain (e : pystr) : pystr := after_last at_sign e.

(** The last two dot-separated labels, when there are two. *)
Definition last_two_labels (d : pystr) : option pystr :=
  match rev (split dot d) with
  | l2 :: l1 :: _ => Some (l1 ++ [dot] ++ l2)
  | _ => None
  end.

Definition denylisted (d : pystr) : Prop :=
  In d PERSONAL_DOMAINS
  \/ exists t, last_two_labels d = Some t /\ In t PERSONAL_DOMAINS.

(** A candidate has the keyword when its lower-cased form contains it. *)
Definition has_keyword (p e : pystr) : bool := contains p (lower e).

(** The addresses found on the pages that were fetched. *)
Definition page_found (W : world) (page_url : pystr) : list pystr :=
  let html := fetch_url W page_url in
  if truthy html then emails_in W html else [].

Definition discovered (W : world) (log : list pystr) : list pystr :=
  flat_map (page_found W) log.

(** The discovered addresses, only the corporate ones when there is one. *)
Definition candidate (found : list pystr) (e : pystr) : Prop :=
  In e found
  /\ (existsb is_corporate_email found = true -> is_corporate_email e = true).

(** The first keyword, in the fixed order, that some candidate has. *)
Definition first_keyword (cands : list pystr) : option pystr :=
  find (fun p => existsb (has_keyword p) cands) priority.

(** The choice among the candidates [cands], which Python iterates in the
    order [iter]: the first candidate, in that order, with the first
    keyword that any candidate has; the smallest candidate when no
    candidate has a keyword. *)
Definition chosen_as_specified (iter cands : list pystr) (c : pystr) : Prop :=
  match first_keyword cands with
  | Some p => find (has_keyword p) iter = Some c
  | None => In c cands /\ forall e, In e cands -> PyStr.leb c e = true
  end.

(** The keywords without "contacto". *)
Definition priority_without_contacto : list pystr :=
  filter (fun p => negb (PyStr.eqb p (py "contacto"))) priority.

(** A row whose score is the one [main] gives it. *)
Definition scored (l : lead) : Prop := score_inicial l = score_lead (fields l).

(** [a] may stand above [b]: a higher score, or the same score and a tag
    that is not greater. *)
Definition ranked (a b : lead) : Prop :=
  (score_inicial b <? score_inicial a)%float = true
  \/ ((score_inicial a =? score_inicial b)%float = true
      /\ PyStr.leb (email_tipo (fields a)) (email_tipo (fields b)) = true).

Definition same_pair (a b : lead) : Prop :=
  empresa (fields a) = empresa (fields b) /\ web (fields a) = web (fields b).

Definition same_pairb (a b : lead) : bool :=
  PyStr.eqb (empresa (fields a)) (empresa (fields b))
  && PyStr.eqb (web (fields a)) (web (fields b)).

(** The rows that do not repeat the (name, website) pair of a row above
    them; [above] are the rows above [rows]. *)
Fixpoint first_of_pair (above rows : list lead) : list lead :=
  match rows with
  | [] => []
  | r :: rest =>
      if existsb (same_pairb r) above then first_of_pair (above ++ [r]) rest
      else r :: first_of_pair (above ++ [r]) rest
  end.

(** tldextract finds the registrable domain [d] for the website. *)
Definition has_domain (W : world) (site d : pystr) : Prop :=
  registered_domain W site = d /\ d <> [].

(** A result of the text search that names the place [pid]. *)
Definition place (pid : pystr) : item := {| place_id := Some pid |}.

(** Any stretch of the main loop: results handled one after the other,
    each under the query that returned it. *)
Definition process_all (W : world) (work : list (pystr * item)) (st : state)
  : state :=
  fold_left (fun st qi => process_item W (fst qi) st (snd qi)) work st.

(** A small world to run the program in: two places of one company,
    whose home page shows three addresses. *)
Definition sample_details (name phone : string) : details :=
  {| d_name := py name;
     formatted_address := py "Calle Mayor 1, 28013 Madrid";
     formatted_phone_number := py phone;
     website := py "https://www.acme.es/contacto?ref=maps";
     types := [py "point_of_interest"; py "establishment"];
     address_components :=
       [ {| comp_types := [py "locality"; py "political"];
            long_name := py "Madrid" |};
         {| comp_types := [py "country"; py "political"];
            long_name := py "Espa" ++ [241%N] ++ py "a" |} ] |}.

Definition sample_world : world :=
  {| API_KEY := py "key";
     places_text_search := fun _ => [place (py "p1"); place (py "p2")];
     place_details := fun pid =>
       if PyStr.eqb pid (py "p1")
       then Some (sample_details "Acme Madrid" "+34 910 000 001")
       else if PyStr.eqb pid (py "p2")
       then Some (sample_details "Acme Getafe" "+34 910 000 002")
       else None;
     urlparse := fun _ => (py "https", py "www.acme.es");
     urljoin := fun base p => base ++ p;
     registered_domain := fun _ => py "acme.es";
     fetch_url := fun url =>
       if PyStr.eqb url (py "https://www.acme.es/")
       then py "<a href='mailto:Ventas@acme.es'>" else [];
     emails_in := fun _ =>
       [py "juan@gmail.com"; py "Ventas@acme.es"; py "rrhh@acme.es"];
     set_iter := fun l => rev l;
     utc_today := py "2024-05-01" |}.

Definition sample_pages : list pystr :=
  find_candidate_pages sample_world (py "https://www.acme.es").

Definition sample_emails : list pystr :=
  fst (crawl sample_world sample_pages []).

Definition sample_log : list pystr :=
  snd (crawl sample_world sample_pages []).

Definition sample_rows : list lead :=
  all_rows (collect sample_world [py "mantenimiento Madrid"]).

Definition sample_row (site : string) : row :=
  {| empresa := py "Acme"; web := py site; email := py "info@acme.es";
     email_tipo := corporativo; telefono := []; direccion := [];
     ciudad := py "Madrid"; provincia := []; pais := []; categoria := [];
     fuente := py "google_places"; query := py "mantenimiento Madrid";
     fecha_extraccion := py "2024-05-01" |}.

(** The values a lead score can take, in hundredths. *)
Definition tenths : list Z := [0; 10; 20; 30; 40; 50; 60; 70; 80; 90; 100]%Z.

End Spec.

(* ================================================================== *)
(** ** leads_detectados.py: harvesting the postings *)
(* ================================================================== *)

Module Harvest.

Import PyStr Re LeadsDetectados.
Local Open Scope Z_scope.

(** What BeautifulSoup gives for one "div.oferta": its first link, with
    its stripped text and its "href" attribute if it has one, and the
    text of its "div.descripcion" if there is one. *)
Record anchor : Type := {
  a_text : pystr;
  a_href : option pystr
}.

Record offer : Type := {
  title_el : option anchor;
  desc_el : option pystr
}.

(** One row of [rows]. *)
Record posting : Type := {
  fuente : pystr;
  fecha_detectada : pystr;
  titulo : pystr;
  descripcion : pystr;
  problema_detectado : pystr;
  score_dolor : Z;
  empresa : option pystr;
  url : pystr
}.

Definition site_root : pystr := py "https://www.tecnoempleo.com".

(** The loop over the offers.  Reading "href" from a link that has none
    raises [KeyError], which is caught outside the loop: the rows made so
    far are what [scrape_html] returns. *)
Fixpoint scrape_offers (source_name today : pystr) (offers : list offer)
  (rows : list posting) : list posting :=
  match offers with
  | [] => rows
  | o :: rest =>
      match title_el o with
      | None => scrape_offers source_name today rest rows     (* continue *)
      | Some a =>
          let title := a_text a in
          let description :=
            match desc_el o with Some d => d | None => [] end in
          match a_href a with
          | None => rows                                      (* KeyError *)
          | Some link =>
              let link := if startswith link (py "/")
                          then site_root ++ link else link in
              let text := full_text title description in
              let score := compute_score text in
              let problem := infer_problem text in
              scrape_offers source_name today rest
                (rows ++ [ {| fuente := source_name;
                              fecha_detectada := today;
                              titulo := title;
                              descripcion := description;
                              problema_detectado := problem;
                              score_dolor := score;
                              empresa := None;
                              url := link |} ])
          end
      end
  end.

(** The outside of the program: the offers parsed from a listing page,
    [None] when the request or the parsing raises; the date; and the
    order [sort_values] gives to a frame, of which only what pandas
    promises is assumed. *)
Record board : Type := {
  listing : pystr -> option (list offer);
  utc_today : pystr;
  sort_values : list posting -> list posting
}.

Definition scrape_html (B : board) (source_name url_ : pystr)
  : list posting :=
  match listing B url_ with
  | None => []
  | Some offers => scrape_offers source_name (utc_today B) offers []
  end.

Definition SEARCH_URLS : list (pystr * pystr) :=
  [ (py "tecnoempleo_backend",
     py "https://www.tecnoempleo.com/ofertas-trabajo/?te=backend");
    (py "tecnoempleo_integracion",
     py "https://www.tecnoempleo.com/ofertas-trabajo/?te=integracion") ].

(** [all_rows] after the loop over the sources. *)
Definition harvest (B : board) (sources : list (pystr * pystr))
  : list posting :=
  fold_left (fun all_rows src =>
               all_rows ++ scrape_html B (fst src) (snd src))
            sources [].

(** [main]: [None] when nothing was detected, else the rows written. *)
Definition main (B : board) : option (list posting) :=
  match harvest B SEARCH_URLS with
  | [] => None
  | all_rows =>
      let df := filter (fun r => 5 <=? score_dolor r) all_rows in
      Some (sort_values B df)
  end.



End Harvest.

(* ================================================================== *)
(** ** init_leads.py: paging through the text search *)
(* ================================================================== *)

Module Places.

Import PyStr InitLeads.

Definition MAX_RESULTS_PER_QUERY : nat := 100.

(** What the program reads of one answer of the text search. *)
Record response : Type := {
  status : pystr;
  results : list item;                 (* [data.get("results", [])] *)
  next_page_token : option pystr
}.

(** The service: the answer to a query, sent with a page token or not. *)
Definition service : Type := pystr -> option pystr -> response.

Definition token_truthy (t : option pystr) : bool :=
  match t with Some s => truthy s | None => false end.

(** The [while True] loop, with the requests it makes (the page token of
    each).  [fuel] bounds the turns; [None] is a loop cut short. *)
Fixpoint search_loop (fuel : nat) (svc : service) (query : pystr)
  (pagetoken : option pystr) (acc : list item) (page_count : nat)
  (sent : list (option pystr))
  : option (list item * list (option pystr)) :=
  match fuel with
  | O => None
  | S fuel' =>
      let data := svc query pagetoken in
      let acc := acc ++ results data in
      let next_token := next_page_token data in
      let page_count := S page_count in
      let sent := sent ++ [pagetoken] in
      if negb (token_truthy next_token)
         || (MAX_RESULTS_PER_QUERY <=? length acc)
         || (3 <=? page_count)
      then Some (acc, sent)
      else search_loop fuel' svc query next_token acc page_count sent
  end.

Definition places_text_search_with (fuel : nat) (svc : service)
  (query : pystr) : option (list item * list (option pystr)) :=
  match search_loop fuel svc query None [] 0 [] with
  | Some (acc, sent) => Some (firstn MAX_RESULTS_PER_QUERY acc, sent)
  | None => None
  end.

(** Three turns are all the loop can take. *)
Definition places_text_search (svc : service) (query : pystr)
  : option (list item * list (option pystr)) :=
  places_text_search_with 3 svc query.

(** The answers to the requests sent, in order. *)
Definition pages_read (svc : service) (query : pystr)
  (sent : list (option pystr)) : list item :=
  flat_map (fun t => results (svc query t)) sent.

(** Each request after the first carries the token of the answer before. *)
Fixpoint chained (svc : service) (query : pystr)
  (sent : list (option pystr)) : Prop :=
  match sent with
  | t :: ((t' :: _) as rest) =>
      t' = next_page_token (svc query t) /\ token_truthy t' = true
      /\ chained svc query rest
  | _ => True
  end.

End Places.

(* ================================================================== *)
(** ** init_leads.py: extracting addresses from a page *)
(* ================================================================== *)

Module Extractor.

Import PyStr Re InitLeads.

(** [re] tries the alternatives of a pattern in a fixed order, the longer
    repetition first, and keeps the first way that succeeds.  [k] is what
    is done with the position reached. *)
Section First.

Context {X : Type}.
Variable k : option N -> pystr -> option X.

Fixpoint eat_first (l : pystr) (prev : option N) (s : pystr) : option X :=
  match l with
  | [] => k prev s
  | x :: l' =>
      match s with
      | c :: s' => if N.eqb c x then eat_first l' (Some c) s' else None
      | [] => None
      end
  end.

Fixpoint many_first (f : N -> bool) (prev : option N) (s : pystr)
  : option X :=
  match s with
  | c :: s' =>
      if f c then
        match many_first f (Some c) s' with
        | Some x => Some x
        | None => k prev s
        end
      else k prev s
  | [] => k prev s
  end.

Fixpoint at_least_first (n : nat) (f : N -> bool) (prev : option N)
  (s : pystr) : option X :=
  match n with
  | O => many_first f prev s
  | S n' =>
      match s with
      | c :: s' => if f c then at_least_first n' f (Some c) s' else None
      | [] => None
      end
  end.

End First.

Fixpoint first_run {X : Type} (r : regex) (k : option N -> pystr -> option X)
  (prev : option N) (s : pystr) : option X :=
  match r with
  | Lit l => eat_first k l prev s
  | Cls f => match s with
             | c :: s' => if f c then k (Some c) s' else None
             | [] => None
             end
  | Bnd => if at_boundary prev s then k prev s else None
  | Seq a b => first_run a (first_run b k) prev s
  | Alt a b => match first_run a k prev s with
               | Some x => Some x
               | None => first_run b k prev s
               end
  | Opt a => match first_run a k prev s with
             | Some x => Some x
             | None => k prev s
             end
  | Rep n f => at_least_first k n f prev s
  end.

(** A match at a position: the item [findall] lists for it, the last
    character read, and the text after the match. *)
Definition found : Type := pystr * option N * pystr.

(** [findall]: the matches from left to right, each search starting
    where the match before ended.  The patterns below never match the
    empty string, so every turn moves on and the length of the text,
    plus one, is fuel enough. *)
Fixpoint findall_from (fuel : nat) (m : option N -> pystr -> option found)
  (prev : option N) (s : pystr) : list pystr :=
  match fuel with
  | O => []
  | S fuel' =>
      match m prev s with
      | Some (thing, prev', rest) => thing :: findall_from fuel' m prev' rest
      | None =>
          match s with
          | [] => []
          | c :: s' => findall_from fuel' m (Some c) s'
          end
      end
  end.

Definition findall (m : option N -> pystr -> option found) (s : pystr)
  : list pystr :=
  findall_from (S (length s)) m None s.

Local Open Scope N_scope.

(** A lower-case ASCII letter of a pattern under [re.IGNORECASE]: itself,
    its capital, and for "i" the two other letters Unicode folds to it. *)
Definition same_letter (l x : N) : bool :=
  (x =? l) || (x =? l - 32)
  || ((l =? 105) && ((x =? 304) || (x =? 305))).

Definition ignore_case (word : string) : regex :=
  seq (map (fun l => Cls (same_letter l)) (py word)).

Definition quote (c : N) : bool := (c =? 34) || (c =? 39).

Definition not_quote (c : N) : bool := negb (quote c).

(** The head of the link pattern: href=, a quote of either kind,
    mailto and a colon. *)
Definition MAILTO_HEAD : regex :=
  seq [ignore_case "href"; lit "="; Cls quote; ignore_case "mailto"; lit ":"].

(** The link pattern: the head, a group of one or more characters that
    are not quotes, and a quote.  The item is the group. *)
Definition mailto_match (prev : option N) (s : pystr) : option found :=
  first_run MAILTO_HEAD
    (fun p1 s1 =>
       first_run (Rep 1 not_quote)
         (fun p2 s2 =>
            first_run (Cls quote)
              (fun p3 s3 =>
                 Some (firstn (length s1 - length s2) s1, p3, s3))
              p2 s2)
         p1 s1)
    prev s.

(** [EMAIL_REGEX], whose item is the whole match. *)
Definition email_match (prev : option N) (s : pystr) : option found :=
  first_run EMAIL_REGEX
    (fun p rest => Some (firstn (length s - length rest) s, p, rest))
    prev s.

Definition question_mark : N := 63.

(** One turn of the loop over the "mailto:" links. *)
Definition add_mailto (emails : list pystr) (mailto : pystr) : list pystr :=
  let email := strip (hd [] (split question_mark mailto)) in
  if fullmatch EMAIL_REGEX email then set_add emails email else emails.

(** One turn of the loop over the addresses in the text. *)
Definition add_match (emails : list pystr) (m : pystr) : list pystr :=
  set_add emails (strip m).

Definition extract_emails_from_html (html : pystr) : list pystr :=
  let emails : list pystr := [] in
  if negb (truthy html) then emails
  else
    let emails := fold_left add_mailto (findall mailto_match html) emails in
    let emails := fold_left add_match (findall email_match html) emails in
    emails.

End Extractor.

(* ================================================================== *)
(** ** Vocabulary for further properties of the code *)
(* ================================================================== *)

Module Props.

Import PyStr Re InitLeads Spec.


(** The paths [find_candidate_pages] joins to the website, in order. *)
Definition candidate_paths : list pystr :=
  map py [ ""; "contact"; "contacto"; "contact-us"; "sobre-nosotros";
           "aviso-legal"; "legal"; "privacy"; "privacidad" ]%string.

Definition with_slash (base_url : pystr) : pystr :=
  if endswith base_url (py "/") then base_url else base_url ++ py "/".

(** A component that carries the type asked for. *)
Definition has_type (typ : pystr) (c : component) : bool :=
  in_set typ (comp_types c).

(** A row as [main] leaves it: scored by [score_lead], tagged with the
    class of its own address, and marked with its source. *)
Definition coherent (l : lead) : Prop :=
  scored l
  /\ email_tipo (fields l) = classify_email (email (fields l))
  /\ fuente (fields l) = py "google_places".

(** The bookkeeping of a run: no place and no domain is recorded twice,
    no recorded domain is empty, and every row belongs to a recorded
    place. *)
Definition tidy (st : state) : Prop :=
  NoDup (seen_places st) /\ NoDup (seen_domains st)
  /\ Forall (fun d => d <> []) (seen_domains st)
  /\ Forall (fun p => p <> []) (seen_places st)
  /\ length (all_rows st) <= length (seen_places st).

(** The sum [score_lead] builds, before [min] and [round]. *)
Definition raw_score (r : row) : float :=
  let score := 0%float in
  let score := if truthy (web r) then (score + 0.3)%float else score in
  let score := if has_corporate_email r then (score + 0.3)%float else score in
  let score := if truthy (telefono r) then (score + 0.2)%float else score in
  let score := if truthy (ciudad r) then (score + 0.1)%float else score in
  let score := if truthy (categoria r) then (score + 0.1)%float else score in
  score.

Definition all_present (r : row) : bool :=
  truthy (web r) && has_corporate_email r && truthy (telefono r)
  && truthy (ciudad r) && truthy (categoria r).

(** The most and the least a list of rules can add. *)
Definition most (rules : list (regex * Z)) : Z :=
  fold_right Z.add 0%Z (map (fun rule => Z.max 0 (snd rule)) rules).

Definition least (rules : list (regex * Z)) : Z :=
  fold_right Z.add 0%Z (map (fun rule => Z.min 0 (snd rule)) rules).

Definition problem_labels : list pystr :=
  [ LeadsDetectados.label_failed; LeadsDetectados.label_integration;
    LeadsDetectados.label_manual; LeadsDetectados.label_leads;
    LeadsDetectados.label_reporting; LeadsDetectados.label_unspecified ].

(** A posting made by [scrape_offers] from its title and description. *)
Definition well_scored (source_name : pystr) (r : Harvest.posting) : Prop :=
  let text := LeadsDetectados.full_text (Harvest.titulo r)
                (Harvest.descripcion r) in
  Harvest.score_dolor r = LeadsDetectados.compute_score text
  /\ Harvest.problema_detectado r = LeadsDetectados.infer_problem text
  /\ Harvest.empresa r = None
  /\ Harvest.fuente r = source_name.

(** An offer with a link that has no "href". *)
Definition broken_link (o : Harvest.offer) : Prop :=
  exists a, Harvest.title_el o = Some a /\ Harvest.a_href a = None.


Definition sample_offer (title description : pystr) (href : option pystr)
  : Harvest.offer :=
  {| Harvest.title_el :=
       Some {| Harvest.a_text := title; Harvest.a_href := href |};
     Harvest.desc_el := Some description |}.

Definition sample_offers : list Harvest.offer :=
  [ sample_offer (py "Backend API integration CRM")
                 (py "migraci" ++ [o_acute] ++ py "n postgres")
                 (Some (py "/oferta/1"));
    sample_offer (py "Community manager") (py "instagram y seo")
                 (Some (py "/oferta/2"));
    sample_offer (py "Sin enlace") (py "api") None;
    sample_offer (py "Integraciones ERP") (py "api y base de datos")
                 (Some (py "https://otra.example/3")) ].

(** The least number of characters a match of a pattern takes. *)
Fixpoint min_len (r : regex) : nat :=
  match r with
  | Lit l => length l
  | Cls _ => 1
  | Bnd => 0
  | Seq a b => min_len a + min_len b
  | Alt a b => Nat.min (min_len a) (min_len b)
  | Opt _ => 0
  | Rep n _ => n
  end.

(** [e] stands somewhere in [text]. *)
Definition occurs_in (e text : pystr) : Prop :=
  exists before after, text = before ++ e ++ after.

Definition is_some {X : Type} (o : option X) : bool :=
  match o with Some _ => true | None => false end.

(** A way of matching that never matches without moving on. *)
Definition consumes (m : option N -> pystr -> option Extractor.found)
  : Prop :=
  forall prev s thing p rest,
    m prev s = Some (thing, p, rest) -> length rest < length s.

(** A service with three pages of two results each. *)
Definition sample_service : Places.service :=
  fun _ pagetoken =>
    match pagetoken with
    | None =>
        {| Places.status := py "OK";
           Places.results := [place (py "p1"); place (py "p2")];
           Places.next_page_token := Some (py "t1") |}
    | Some t =>
        if PyStr.eqb t (py "t1")
        then {| Places.status := py "OK";
                Places.results := [place (py "p3"); place (py "p4")];
                Places.next_page_token := Some (py "t2") |}
        else {| Places.status := py "OK";
                Places.results := [place (py "p5"); place (py "p6")];
                Places.next_page_token := Some (py "t3") |}
    end.

Definition none_present (r : row) : bool :=
  negb (truthy (web r)) && negb (has_corporate_email r)
  && negb (truthy (telefono r)) && negb (truthy (ciudad r))
  && negb (truthy (categoria r)).

End Props.

(* ================================================================== *)
(** ** Facts about strings and patterns *)
(* ================================================================== *)

Import PyStr Re.

Lemma eqb_eq (a b : pystr) : PyStr.eqb a b = true <-> a = b.
Proof.
  revert b; induction a as [|x a IH]; intros [|y b]; simpl;
    try (split; congruence).
  rewrite andb_true_iff, N.eqb_eq, IH. split.
  - intros [-> ->]; reflexivity.
  - intros H; injection H; auto.
Qed.

Lemma eqb_refl (a : pystr) : PyStr.eqb a a = true.
Proof. apply eqb_eq; reflexivity. Qed.

Lemma in_set_In (x : pystr) (xs : list pystr) : in_set x xs = true <-> In x xs.
Proof.
  unfold in_set. rewrite existsb_exists. split.
  - intros (y & Hy & E). apply eqb_eq in E. subst; assumption.
  - intros H. exists x. split; [assumption | apply eqb_refl].
Qed.

(** A literal pattern is found exactly where the text begins with it. *)
Lemma eat_startswith (l : pystr) (prev : option N) (s : pystr) :
  eat anything l prev s = startswith s l.
Proof.
  revert prev s; induction l as [|x l IH]; intros prev [|c s]; simpl; auto.
  rewrite IH, N.eqb_sym. reflexivity.
Qed.

Lemma search_from_lit (l : pystr) (prev : option N) (s : pystr) :
  search_from (Lit l) prev s = contains l s.
Proof.
  revert prev; induction s as [|c s IH]; intros prev; simpl.
  - rewrite eat_startswith. reflexivity.
  - rewrite eat_startswith, IH. reflexivity.
Qed.

(** Searching a literal is the substring test. *)
Lemma search_lit (l s : pystr) : search (Lit l) s = contains l s.
Proof. apply search_from_lit. Qed.

Lemma search_from_alt (a b : regex) (prev : option N) (s : pystr) :
  search_from (Alt a b) prev s = search_from a prev s || search_from b prev s.
Proof.
  revert prev; induction s as [|c s IH]; intros prev; simpl.
  - rewrite !orb_false_r. reflexivity.
  - rewrite IH.
    destruct (run a anything prev (c :: s)), (run b anything prev (c :: s)),
      (search_from a (Some c) s); reflexivity.
Qed.

(** An alternation is found when one of its branches is. *)
Lemma search_alt (a b : regex) (s : pystr) :
  search (Alt a b) s = search a s || search b s.
Proof. apply search_from_alt. Qed.

(* ================================================================== *)
(** ** leads_detectados.py: the text signal scorer *)
(* ================================================================== *)

Import LeadsDetectados Spec.

Local Open Scope Z_scope.

Lemma fold_add_signal (t : pystr) (rules : list (regex * Z)) (score : Z) :
  fold_left (add_signal t) rules score = score + total rules t.
Proof.
  revert score; induction rules as [|[pattern value] rules IH];
    intros score; simpl.
  - unfold total; simpl. lia.
  - rewrite IH. unfold total; simpl. unfold contribution at 2; simpl.
    destruct (search pattern t); lia.
Qed.

(** C4.  For every text, [compute_score] is the sum, over the positive and
    then the negative rules, of the weight of each rule whose pattern is
    found in the lower-cased text, each rule counted once however often
    its pattern occurs; rules that match overlapping text each count:
    "sistema" found three times weighs 3, and "sistema actual" weighs
    3 + 5. *)
Theorem compute_score_sum_of_matched_rules :
  (forall text : pystr,
     compute_score text
     = total POSITIVE_SIGNALS (lower text)
       + total NEGATIVE_SIGNALS (lower text))
  /\ compute_score (py "sistema sistema sistema") = 3
  /\ compute_score (py "sistema") = 3
  /\ compute_score (py "sistema actual") = 3 + 5.
Proof.
  split; [| repeat split; vm_compute; reflexivity].
  intros text. unfold compute_score.
  rewrite !fold_add_signal. lia.
Qed.

(** C5, as the claim has it, fails: a text with "api" and "excel" that
    also has "fall" gets the label of the failed attempt. *)
Lemma infer_problem_failed_attempt_first :
  let text := py "La API de Excel falla" in
  search (lit "api") (lower text) = true
  /\ search (lit "excel") (lower text) = true
  /\ infer_problem text = label_failed
  /\ infer_problem text <> label_integration.
Proof. vm_compute. repeat split; discriminate. Qed.

(** C5, amended.  For every text whose lower-cased form has both "api"
    and "excel", [infer_problem] gives the label of the failed attempt
    when the pattern of the first test is found too, and the integration
    label otherwise; it never gives the manual-process label. *)
Theorem infer_problem_integration_before_manual (text : pystr) :
  search (lit "api") (lower text) = true ->
  search (lit "excel") (lower text) = true ->
  infer_problem text
  = (if search pattern_failed (lower text)
     then label_failed else label_integration)
  /\ infer_problem text <> label_manual.
Proof.
  intros Hapi _.
  assert (Hint : search pattern_integration (lower text) = true).
  { unfold pattern_integration; simpl alt.
    rewrite !search_alt, Hapi, orb_true_r. reflexivity. }
  unfold infer_problem. rewrite Hint.
  destruct (search pattern_failed (lower text)); split;
    try reflexivity; vm_compute; discriminate.
Qed.

Lemma infer_problem_integration_before_manual_witness :
  infer_problem (py "Exportar Excel por API")
  = (if search pattern_failed (lower (py "Exportar Excel por API"))
     then label_failed else label_integration)
  /\ infer_problem (py "Exportar Excel por API") <> label_manual.
Proof.
  apply (infer_problem_integration_before_manual
           (py "Exportar Excel por API")); vm_compute; reflexivity.
Defined.

Definition posting_title : pystr := py "Backend API integration CRM".
Definition posting_description : pystr :=
  py "migraci" ++ [o_acute] ++ py "n postgres".

(** C6, as the claim has it, fails: the posting scores 19, not 20.  The
    English "integration" is not what the rule for "integración" looks
    for, and "postgres" weighs 4. *)
Lemma posting_score_is_not_20 :
  compute_score (full_text posting_title posting_description) <> 20.
Proof. vm_compute. discriminate. Qed.

(** C6, amended.  The combined text of the posting scores 19 (api 4,
    crm 4, postgres 4, backend 3, migración 4, no negative rule), which
    is at least 5 and passes the filter. *)
Theorem posting_score_is_19 :
  let t := full_text posting_title posting_description in
  compute_score t = 19
  /\ map (contribution (lower t)) POSITIVE_SIGNALS
     = [0; 0; 0; 0; 0; 0; 4; 4; 0; 0; 4; 3; 0; 4; 0]
  /\ total NEGATIVE_SIGNALS (lower t) = 0
  /\ passes_filter (compute_score t) = true.
Proof. vm_compute. repeat split; reflexivity. Qed.

(* ================================================================== *)
(** ** init_leads.py: the lead score *)
(* ================================================================== *)

Import InitLeads.

Local Open Scope float_scope.

Lemma points_tenths (r : row) : In (points r) tenths.
Proof.
  unfold points, hundredths.
  destruct (truthy (web r)), (has_corporate_email r), (truthy (telefono r)),
    (truthy (ciudad r)), (truthy (categoria r));
    cbv; repeat ((left; reflexivity) || right).
Qed.

(** The float sum never strays from the decimal one. *)
Lemma score_lead_points (r : row) : score_lead r = of_hundredths (points r).
Proof.
  unfold score_lead, points, hundredths.
  fold (has_corporate_email r).
  destruct (truthy (web r)), (has_corporate_email r), (truthy (telefono r)),
    (truthy (ciudad r)), (truthy (categoria r));
    vm_compute; reflexivity.
Qed.

Lemma tenths_order_table :
  forallb (fun a =>
    forallb (fun b =>
      Bool.eqb (of_hundredths a <=? of_hundredths b) (a <=? b)%Z
      && Bool.eqb (of_hundredths a <? of_hundredths b) (a <? b)%Z
      && Bool.eqb (of_hundredths a =? of_hundredths b) (a =? b)%Z)
    tenths) tenths = true.
Proof. vm_compute. reflexivity. Qed.

(** On the scores that occur, the order of floats is that of hundredths. *)
Lemma tenths_order (a b : Z) :
  In a tenths -> In b tenths ->
  (of_hundredths a <=? of_hundredths b) = (a <=? b)%Z
  /\ (of_hundredths a <? of_hundredths b) = (a <? b)%Z
  /\ (of_hundredths a =? of_hundredths b) = (a =? b)%Z.
Proof.
  intros Ha Hb.
  pose proof tenths_order_table as T.
  rewrite forallb_forall in T. specialize (T a Ha).
  rewrite forallb_forall in T. specialize (T b Hb).
  rewrite !andb_true_iff in T. destruct T as [[T1 T2] T3].
  apply Bool.eqb_prop in T1, T2, T3. auto.
Qed.

Lemma tenths_rounded (a : Z) :
  In a tenths -> round2 (of_hundredths a) = of_hundredths a.
Proof.
  intros Ha. cbv in Ha.
  repeat (destruct Ha as [<- | Ha]; [vm_compute; reflexivity |]).
  contradiction.
Qed.

(** C3.  For every row, [score_lead] is the sum, from 0.0, of 0.3 for a
    website, 0.3 for an address classified corporate, 0.2 for a phone,
    0.1 for a city and 0.1 for a category, clamped to [0, 1] and rounded
    to two places; and that float is the one nearest to the decimal sum
    of the same amounts. *)
Theorem score_lead_is_spec_score (r : row) :
  score_lead r = score r
  /\ score_lead r = of_hundredths (points r).
Proof.
  split; [| apply score_lead_points].
  unfold score_lead, score, amount.
  fold (has_corporate_email r).
  destruct (truthy (web r)), (has_corporate_email r), (truthy (telefono r)),
    (truthy (ciudad r)), (truthy (categoria r));
    vm_compute; reflexivity.
Qed.

Lemma filled_truthy (old new : pystr) (k : Z) :
  filled old new -> (0 <= k)%Z ->
  (hundredths (truthy old) k <= hundredths (truthy new) k)%Z.
Proof.
  intros [-> | ->] Hk; unfold hundredths; simpl.
  - destruct (truthy new); lia.
  - lia.
Qed.

Lemma filled_email (r r' : row) :
  filled (email r) (email r') ->
  (hundredths (has_corporate_email r) 30
   <= hundredths (has_corporate_email r') 30)%Z.
Proof.
  unfold has_corporate_email, hundredths.
  intros [-> | ->]; [| lia].
  simpl. destruct (PyStr.eqb _ _); lia.
Qed.

Lemma fills_points (r r' : row) : fills r r' -> (points r <= points r')%Z.
Proof.
  intros (Hw & He & Ht & Hc & Hk). unfold points.
  pose proof (filled_truthy _ _ 30%Z Hw). pose proof (filled_email r r' He).
  pose proof (filled_truthy _ _ 20%Z Ht).
  pose proof (filled_truthy _ _ 10%Z Hc).
  pose proof (filled_truthy _ _ 10%Z Hk). lia.
Qed.

Lemma tenths_range (k : Z) : In k tenths -> (0 <= k <= 100)%Z.
Proof. unfold tenths. simpl. intuition lia. Qed.

Lemma score_lead_range (r : row) :
  (0 <=? score_lead r) = true /\ (score_lead r <=? 1) = true
  /\ round2 (score_lead r) = score_lead r.
Proof.
  rewrite score_lead_points.
  pose proof (points_tenths r) as Hp.
  pose proof (tenths_range _ Hp) as Hr.
  assert (H0 : In 0%Z tenths) by (left; reflexivity).
  assert (H100 : In 100%Z tenths) by (do 10 right; left; reflexivity).
  split; [| split].
  - change 0 with (of_hundredths 0).
    destruct (tenths_order 0%Z (points r) H0 Hp) as (-> & _).
    apply Z.leb_le. lia.
  - change 1 with (of_hundredths 100).
    destruct (tenths_order (points r) 100%Z Hp H100) as (-> & _).
    apply Z.leb_le. lia.
  - apply tenths_rounded. assumption.
Qed.

(** C9.  Filling in absent fields among website, e-mail, phone, city and
    category never lowers the score, and every score lies within [0, 1]
    and is a float rounded to two places. *)
Theorem score_lead_monotone (r r' : row) :
  fills r r' ->
  (score_lead r <=? score_lead r') = true
  /\ ((0 <=? score_lead r) = true /\ (score_lead r <=? 1) = true
      /\ round2 (score_lead r) = score_lead r)
  /\ ((0 <=? score_lead r') = true /\ (score_lead r' <=? 1) = true
      /\ round2 (score_lead r') = score_lead r').
Proof.
  intros H. split; [| split; apply score_lead_range].
  rewrite !score_lead_points.
  destruct (tenths_order (points r) (points r')) as (-> & _);
    try apply points_tenths.
  apply Z.leb_le. apply fills_points. assumption.
Qed.

Lemma score_lead_monotone_witness :
  let r := sample_row "" in
  let r' := sample_row "https://www.acme.es" in
  (score_lead r <=? score_lead r') = true
  /\ ((0 <=? score_lead r) = true /\ (score_lead r <=? 1) = true
      /\ round2 (score_lead r) = score_lead r)
  /\ ((0 <=? score_lead r') = true /\ (score_lead r' <=? 1) = true
      /\ round2 (score_lead r') = score_lead r').
Proof.
  apply (score_lead_monotone (sample_row "") (sample_row "https://www.acme.es")).
  unfold fills, filled.
  repeat split; first [left; reflexivity | right; reflexivity].
Defined.

(* ================================================================== *)
(** ** init_leads.py: the e-mail classifier *)
(* ================================================================== *)

Local Open Scope nat_scope.

Section MatcherFacts.

Variable k : option N -> pystr -> bool.

Lemma eat_spec (l : pystr) (prev : option N) (s : pystr) :
  eat k l prev s = true
  <-> exists b, s = l ++ b /\ k (walk prev l) b = true.
Proof.
  revert prev s; induction l as [|x l IH]; intros prev s; simpl.
  - split; [intros H; exists s; auto | intros (b & -> & H); exact H].
  - destruct s as [|c s].
    + split; [discriminate | intros (b & E & _); discriminate].
    + rewrite andb_true_iff, N.eqb_eq, IH. split.
      * intros (-> & b & -> & H). exists b. auto.
      * intros (b & E & H). injection E as -> ->. eauto.
Qed.

Lemma many_spec (f : N -> bool) (prev : option N) (s : pystr) :
  many k f prev s = true
  <-> exists a b, s = a ++ b /\ forallb f a = true
                  /\ k (walk prev a) b = true.
Proof.
  revert prev; induction s as [|c s IH]; intros prev; simpl.
  - rewrite orb_false_r. split.
    + intros H. exists [], []. auto.
    + intros (a & b & E & _ & H). symmetry in E.
      apply app_eq_nil in E. destruct E as [-> ->]. exact H.
  - rewrite orb_true_iff, andb_true_iff, IH. split.
    + intros [H | (Hc & a & b & -> & Ha & H)].
      * exists [], (c :: s). auto.
      * exists (c :: a), b. simpl. rewrite Hc, Ha. auto.
    + intros ([|x a] & b & E & Ha & H); simpl in *.
      * left. subst b. exact H.
      * right. injection E as -> ->.
        apply andb_true_iff in Ha. destruct Ha as [Hx Ha].
        split; [exact Hx | eauto].
Qed.

Lemma at_least_spec (n : nat) (f : N -> bool) (prev : option N)
  (s : pystr) :
  at_least k n f prev s = true
  <-> exists a b, s = a ++ b /\ n <= length a /\ forallb f a = true
                  /\ k (walk prev a) b = true.
Proof.
  revert prev s; induction n as [|n IH]; intros prev s; simpl.
  - rewrite many_spec. split.
    + intros (a & b & E & Ha & H). exists a, b. repeat split; auto. lia.
    + intros (a & b & E & _ & Ha & H). eauto.
  - destruct s as [|c s].
    + split; [discriminate |].
      intros ([|x a] & b & E & Hn & _); simpl in *; [lia | discriminate].
    + rewrite andb_true_iff, IH. split.
      * intros (Hc & a & b & -> & Hn & Ha & H).
        exists (c :: a), b. simpl. rewrite Hc, Ha.
        repeat split; auto. lia.
      * intros ([|x a] & b & E & Hn & Ha & H); simpl in *; [lia |].
        injection E as -> ->.
        apply andb_true_iff in Ha. destruct Ha as [Hx Ha].
        split; [exact Hx |]. exists a, b. repeat split; auto. lia.
Qed.

End MatcherFacts.

Lemma at_end_nil (prev : option N) (s : pystr) :
  at_end prev s = true <-> s = [].
Proof. destruct s; simpl; split; congruence. Qed.

(** The e-mail pattern matches a whole string exactly when the string has
    the shape the specification describes. *)
Lemma fullmatch_EMAIL_REGEX (e : pystr) :
  fullmatch EMAIL_REGEX e = true <-> valid e.
Proof.
  unfold valid.
  change (fullmatch EMAIL_REGEX e)
    with (at_least
            (eat (at_least (eat (at_least at_end 2 letter_ic) [dot])
                           1 host_class)
                 [at_sign])
            1 local_class None e).
  rewrite at_least_spec. split.
  - intros (l & b1 & -> & Hl & Fl & H).
    apply eat_spec in H. destruct H as (b2 & -> & H).
    apply at_least_spec in H. destruct H as (h & b3 & -> & Hh & Fh & H).
    apply eat_spec in H. destruct H as (b4 & -> & H).
    apply at_least_spec in H. destruct H as (t & b5 & -> & Ht & Ft & H).
    apply at_end_nil in H. subst b5. rewrite app_nil_r.
    exists l, h, t. repeat split; auto.
    + intros ->. simpl in Hl. lia.
    + intros ->. simpl in Hh. lia.
  - intros (l & h & t & -> & Hl & Fl & Hh & Fh & Ht & Ft).
    exists l, ([at_sign] ++ h ++ [dot] ++ t). repeat split; auto.
    { destruct l; [congruence | simpl; lia]. }
    apply eat_spec. exists (h ++ [dot] ++ t). split; [reflexivity |].
    apply at_least_spec. exists h, ([dot] ++ t). repeat split; auto.
    { destruct h; [congruence | simpl; lia]. }
    apply eat_spec. exists t. split; [reflexivity |].
    apply at_least_spec. exists t, []. rewrite app_nil_r.
    repeat split; auto.
Qed.

Lemma split_not_nil (sep : N) (s : pystr) : split sep s <> [].
Proof.
  destruct s as [|c s]; simpl; [discriminate |].
  destruct (c =? sep)%N; [discriminate |].
  destruct (split sep s); discriminate.
Qed.

Lemma split_without (sep : N) (s : pystr) :
  occurs sep s = false -> split sep s = [s].
Proof.
  induction s as [|c s IH]; simpl; [reflexivity |].
  intros H. apply orb_false_iff in H. destruct H as [Hc Hs].
  rewrite N.eqb_sym, Hc, (IH Hs). reflexivity.
Qed.

Lemma split_with (sep : N) (s : pystr) :
  occurs sep s = true ->
  exists p q rest, split sep s = p :: q :: rest.
Proof.
  induction s as [|c s IH]; simpl; [discriminate |].
  rewrite (N.eqb_sym sep c). destruct (c =? sep)%N; simpl.
  - intros _. destruct (split sep s) as [|q rest] eqn:E.
    + destruct (split_not_nil _ _ E).
    + eauto.
  - intros H. destruct (IH H) as (p & q & rest & ->). eauto.
Qed.

Lemma after_last_without (sep : N) (s : pystr) :
  occurs sep s = false -> after_last sep s = s.
Proof.
  destruct s as [|c s]; simpl; [reflexivity |].
  intros H. apply orb_false_iff in H. destruct H as [Hc Hs].
  rewrite Hs, N.eqb_sym, Hc. reflexivity.
Qed.

(** [s.split(sep)[-1]] is what follows the final separator. *)
Lemma last_split (sep : N) (s : pystr) :
  last (split sep s) [] = after_last sep s.
Proof.
  induction s as [|c s IH]; [reflexivity |].
  simpl split. simpl after_last.
  destruct (occurs sep s) eqn:Hs.
  - destruct (split_with _ _ Hs) as (p & q & rest & E).
    rewrite E in *. destruct (c =? sep)%N; exact IH.
  - rewrite (split_without _ _ Hs) in *.
    destruct (c =? sep)%N; [| reflexivity].
    simpl. reflexivity.
Qed.

(** What follows the final separator has none, and the separator stands
    right before it. *)
Lemma after_last_spec (sep : N) (s : pystr) :
  occurs sep s = true ->
  occurs sep (after_last sep s) = false
  /\ exists p, s = p ++ sep :: after_last sep s.
Proof.
  induction s as [|c s IH]; simpl; [discriminate |].
  destruct (occurs sep s) eqn:Hs.
  - intros _. destruct (IH eq_refl) as (H & p & E). split; [exact H |].
    exists (c :: p). simpl. rewrite <- E. reflexivity.
  - rewrite orb_false_r, (N.eqb_sym sep c). intros Hc. rewrite Hc.
    apply N.eqb_eq in Hc. subst c. split; [exact Hs |].
    exists []. reflexivity.
Qed.

Lemma last_n_two {A : Type} (l : list A) :
  2 <= length l ->
  exists pre x y, l = pre ++ [x; y] /\ last_n 2 l = [x; y].
Proof.
  intros H. unfold last_n.
  destruct (rev l) as [|y [|x r]] eqn:E;
    apply (f_equal (@rev A)) in E; rewrite rev_involutive in E; subst l;
    simpl in H; try lia.
  exists (rev r), x, y. simpl. rewrite <- app_assoc. simpl.
  split; [reflexivity |].
  rewrite length_app. simpl.
  replace (length (rev r) + 2 - 2) with (length (rev r) + 0) by lia.
  rewrite skipn_app, Nat.add_0_r, skipn_all.
  replace (length (rev r) - length (rev r)) with 0 by lia.
  reflexivity.
Qed.

(** The second test of the denylist, in the words of the specification. *)
Lemma last_two_labels_code (d : pystr) :
  ((2 <=? length (split dot d))
   && in_set (join [dot] (last_n 2 (split dot d))) PERSONAL_DOMAINS) = true
  <-> exists t, last_two_labels d = Some t /\ In t PERSONAL_DOMAINS.
Proof.
  unfold last_two_labels.
  rewrite andb_true_iff, Nat.leb_le, in_set_In. split.
  - intros [H2 Hin]. destruct (last_n_two _ H2) as (pre & x & y & E & L).
    rewrite L in Hin. rewrite E, rev_app_distr. simpl.
    exists (x ++ dot :: y). split; [reflexivity | exact Hin].
  - intros (t & Ht & Hin).
    destruct (rev (split dot d)) as [|y [|x r]] eqn:E; try discriminate.
    injection Ht as <-.
    apply (f_equal (@rev pystr)) in E. rewrite rev_involutive in E.
    assert (H2 : 2 <= length (split dot d)).
    { rewrite E. simpl. rewrite !length_app. simpl. lia. }
    split; [exact H2 |].
    destruct (last_n_two _ H2) as (pre & x' & y' & E' & L).
    rewrite L. rewrite E in E'. simpl in E'.
    rewrite <- app_assoc in E'. simpl in E'.
    apply (f_equal (@rev pystr)) in E'.
    rewrite !rev_app_distr in E'. simpl in E'.
    injection E' as <- <- _. exact Hin.
Qed.

(** [is_corporate_email] in the words of the specification: a valid
    address whose domain is not on the denylist. *)
Lemma is_corporate_email_spec (a : pystr) :
  is_corporate_email a = true
  <-> valid (lower (strip a)) /\ ~ denylisted (domain (lower (strip a))).
Proof.
  unfold is_corporate_email, denylisted, domain.
  rewrite last_split. set (e := lower (strip a)).
  rewrite <- fullmatch_EMAIL_REGEX.
  rewrite <- last_two_labels_code, <- in_set_In.
  set (v := fullmatch EMAIL_REGEX e).
  set (d1 := in_set (after_last at_sign e) PERSONAL_DOMAINS).
  set (d2 := andb _ _).
  clearbody v d1 d2.
  destruct v, d1, d2; simpl; intuition discriminate.
Qed.

Lemma tags_distinct :
  no_encontrado <> corporativo /\ no_encontrado <> personal
  /\ corporativo <> personal.
Proof. repeat split; discriminate. Qed.

(** C1, as the claim has it, fails: "info@acme" is not empty and its
    domain "acme" is not on the denylist, yet it is tagged personal,
    because it is not a valid address. *)
Lemma classify_email_invalid_is_personal :
  let a := py "info@acme" in
  a <> []
  /\ domain a = py "acme"
  /\ ~ denylisted (domain a)
  /\ classify_email a = personal
  /\ classify_email a <> corporativo.
Proof.
  cbv zeta. repeat split; try (vm_compute; discriminate);
    try (vm_compute; reflexivity).
  intros [H | (t & Ht & _)].
  - vm_compute in H. intuition discriminate.
  - vm_compute in Ht. discriminate.
Qed.

Lemma denylisted_dec (d : pystr) : denylisted d \/ ~ denylisted d.
Proof.
  unfold denylisted. rewrite <- last_two_labels_code, <- in_set_In.
  destruct (in_set d PERSONAL_DOMAINS); [left; auto |].
  destruct (_ && _); [left; auto |].
  right. intros [H | H]; discriminate.
Qed.

(** C1, amended.  [classify_email] gives "no_encontrado" exactly for the
    empty address.  For a non-empty address, trimmed and lower-cased to
    [e], it gives "personal" exactly when [e] is not a valid address or
    the domain after its final "@", or the last two labels of that
    domain, is on the denylist, and "corporativo" otherwise. *)
Theorem classify_email_spec (a : pystr) :
  let e := lower (strip a) in
  (classify_email a = no_encontrado <-> a = [])
  /\ (classify_email a = personal
      <-> a <> [] /\ (~ valid e \/ denylisted (domain e)))
  /\ (classify_email a = corporativo
      <-> a <> [] /\ valid e /\ ~ denylisted (domain e)).
Proof.
  cbv zeta.
  destruct tags_distinct as (T1 & T2 & T3).
  pose proof (is_corporate_email_spec a) as C.
  unfold classify_email.
  destruct a as [|c a]; cbn [truthy negb].
  - repeat split; try congruence; intros [H _]; congruence.
  - set (e := lower (strip (c :: a))) in *.
    destruct (is_corporate_email (c :: a)) eqn:E.
    + assert (V : valid e /\ ~ denylisted (domain e)) by (apply C; reflexivity).
      repeat split; try congruence; try discriminate; try tauto.
    + assert (V : ~ (valid e /\ ~ denylisted (domain e))).
      { intros H. apply C in H. discriminate. }
      repeat split; try congruence; try discriminate; try tauto.
      destruct (denylisted_dec (domain e)); tauto.
Qed.

(* ================================================================== *)
(** ** The order of strings, and sorting *)
(* ================================================================== *)

Lemma compare_antisym (a b : pystr) :
  PyStr.compare b a = CompOpp (PyStr.compare a b).
Proof.
  revert b; induction a as [|x a IH]; intros [|y b]; simpl; auto.
  rewrite (N.compare_antisym x y).
  destruct (N.compare x y); simpl; auto.
Qed.

Lemma compare_eq (a b : pystr) : PyStr.compare a b = Eq -> a = b.
Proof.
  revert b; induction a as [|x a IH]; intros [|y b]; simpl;
    try discriminate; auto.
  destruct (N.compare_spec x y) as [-> | _ | _]; try discriminate.
  intros E. f_equal. auto.
Qed.

Lemma leb_total (a b : pystr) : PyStr.leb a b = false -> PyStr.leb b a = true.
Proof.
  unfold PyStr.leb. rewrite (compare_antisym a b).
  destruct (PyStr.compare a b); simpl; congruence.
Qed.

Lemma leb_refl (a : pystr) : PyStr.leb a a = true.
Proof.
  destruct (PyStr.leb a a) eqn:E; [reflexivity |].
  pose proof (leb_total _ _ E). congruence.
Qed.

Lemma leb_antisym (a b : pystr) :
  PyStr.leb a b = true -> PyStr.leb b a = true -> a = b.
Proof.
  unfold PyStr.leb. rewrite (compare_antisym a b).
  destruct (PyStr.compare a b) eqn:E; simpl; try discriminate.
  intros _ _. apply compare_eq. exact E.
Qed.

Lemma leb_trans (a b c : pystr) :
  PyStr.leb a b = true -> PyStr.leb b c = true -> PyStr.leb a c = true.
Proof.
  unfold PyStr.leb.
  revert b c; induction a as [|x a IH]; intros [|y b] [|z c]; simpl;
    try discriminate; auto.
  specialize (IH b c).
  destruct (N.compare_spec x y), (N.compare_spec y z),
    (N.compare_spec x z); subst; try discriminate; auto; lia.
Qed.

Section SortingFacts.

Context {A : Type}.
Variable le : A -> A -> bool.
Variable P : A -> Prop.
Hypothesis le_total : forall a b, P a -> P b -> le a b = false -> le b a = true.
Hypothesis le_trans :
  forall a b c, P a -> P b -> P c ->
                le a b = true -> le b c = true -> le a c = true.

Lemma insert_sorted_perm (x : A) (l : list A) :
  Permutation (insert_sorted le x l) (x :: l).
Proof.
  induction l as [|y l IH]; simpl; [reflexivity |].
  destruct (le x y); [reflexivity |].
  rewrite IH. apply perm_swap.
Qed.

Lemma sort_by_perm (l : list A) : Permutation (sort_by le l) l.
Proof.
  induction l as [|x l IH]; simpl; [reflexivity |].
  rewrite insert_sorted_perm, IH. reflexivity.
Qed.

Lemma insert_sorted_sorted (x : A) (l : list A) :
  P x -> Forall P l -> StronglySorted (fun a b => le a b = true) l ->
  StronglySorted (fun a b => le a b = true) (insert_sorted le x l).
Proof.
  intros Px Pl Sl. induction Sl as [|y l Sl IH Hy]; simpl.
  - repeat constructor.
  - inversion Pl as [|? ? Py Pl']; subst.
    destruct (le x y) eqn:E.
    + constructor; [constructor; assumption |].
      constructor; [exact E |].
      rewrite Forall_forall in Hy, Pl' |- *. intros z Hz.
      apply (le_trans x y z); auto.
    + constructor; [apply IH; assumption |].
      apply (Permutation_Forall (Permutation_sym (insert_sorted_perm x l))).
      constructor; [apply le_total; assumption | assumption].
Qed.

Lemma sort_by_sorted (l : list A) :
  Forall P l -> StronglySorted (fun a b => le a b = true) (sort_by le l).
Proof.
  induction l as [|x l IH]; simpl; intros H; [constructor |].
  inversion H; subst.
  apply insert_sorted_sorted; auto.
  apply (Permutation_Forall (Permutation_sym (sort_by_perm l))).
  assumption.
Qed.

End SortingFacts.

(** [sorted(emails)[0]] is the smallest address of the set. *)
Lemma sorted_head_least (l : list pystr) :
  l <> [] ->
  In (hd [] (sorted l)) l
  /\ forall e, In e l -> PyStr.leb (hd [] (sorted l)) e = true.
Proof.
  intros Hl. unfold sorted.
  pose proof (sort_by_perm PyStr.leb l) as HP.
  assert (HS : StronglySorted (fun a b => PyStr.leb a b = true)
                 (sort_by PyStr.leb l)).
  { apply (sort_by_sorted PyStr.leb (fun _ => True)).
    - intros a b _ _. apply leb_total.
    - intros a b c _ _ _. apply leb_trans.
    - apply Forall_forall. auto. }
  destruct (sort_by PyStr.leb l) as [|m rest] eqn:E.
  - apply Permutation_nil in HP. congruence.
  - simpl. split.
    + apply (Permutation_in _ HP). left. reflexivity.
    + intros e He. apply (Permutation_in _ (Permutation_sym HP)) in He.
      inversion HS as [|? ? _ Hm]; subst.
      destruct He as [<- | He]; [apply leb_refl |].
      rewrite Forall_forall in Hm. auto.
Qed.

(* ================================================================== *)
(** ** init_leads.py: crawling and the choice of one address *)
(* ================================================================== *)

Lemma set_add_In (xs : list pystr) (x e : pystr) :
  In e (set_add xs x) <-> In e xs \/ e = x.
Proof.
  unfold set_add. destruct (in_set x xs) eqn:E.
  - apply in_set_In in E. split; [auto | intros [H | ->]; assumption].
  - rewrite in_app_iff. simpl. intuition.
Qed.

Lemma set_union_In (xs ys : list pystr) (e : pystr) :
  In e (set_union xs ys) <-> In e xs \/ In e ys.
Proof.
  unfold set_union. revert xs; induction ys as [|y ys IH]; intros xs; simpl.
  - intuition.
  - rewrite IH, set_add_In. intuition.
Qed.

Lemma set_of_In (xs : list pystr) (e : pystr) : In e (set_of xs) <-> In e xs.
Proof. unfold set_of. rewrite set_union_In. simpl. intuition. Qed.

Lemma existsb_ext_In {A : Type} (f : A -> bool) (l1 l2 : list A) :
  (forall x, In x l1 <-> In x l2) -> existsb f l1 = existsb f l2.
Proof.
  intros H. apply eq_true_iff_eq. rewrite !existsb_exists.
  split; intros (x & Hx & Fx); exists x; split; auto; apply H; assumption.
Qed.

Lemma candidate_ext (l1 l2 : list pystr) (e : pystr) :
  (forall x, In x l1 <-> In x l2) -> candidate l1 e <-> candidate l2 e.
Proof.
  intros H. unfold candidate. rewrite (existsb_ext_In _ l1 l2 H), (H e).
  reflexivity.
Qed.

Lemma discovered_cons (W : world) (page : pystr) (log : list pystr) :
  discovered W (page :: log) = page_found W page ++ discovered W log.
Proof. reflexivity. Qed.

(** The set the crawl ends with: what was found on the pages fetched,
    only the corporate addresses when one was found. *)
Lemma crawl_candidates (W : world) (pages : list pystr) :
  fair_iteration W ->
  forall acc emails log,
    (forall e, In e acc -> is_corporate_email e = false) ->
    crawl W pages acc = (emails, log) ->
    forall e, In e emails <-> candidate (acc ++ discovered W log) e.
Proof.
  intros HW. induction pages as [|page rest IH]; intros acc emails log Hacc.
  - simpl. intros E. injection E as <- <-. intros e. simpl.
    rewrite app_nil_r. unfold candidate. split; [| tauto].
    intros He. split; [exact He |]. intros Hx.
    apply existsb_exists in Hx. destruct Hx as (x & Hx & Cx).
    rewrite (Hacc x Hx) in Cx. discriminate.
  - simpl crawl.
    destruct (truthy (fetch_url W page)) eqn:Hh; simpl negb; cbv iota.
    + set (found := emails_in W (fetch_url W page)).
      set (new := set_union acc found).
      destruct (match new with
                | [] => []
                | _ :: _ => filter is_corporate_email (set_iter W new)
                end) as [|c0 corp] eqn:Hc.
      * destruct (crawl W rest new) as [emails' log'] eqn:Hcr.
        intros E. injection E as <- <-. intros e.
        rewrite discovered_cons. unfold page_found. rewrite Hh. fold found.
        rewrite (IH new emails' log'); [| | exact Hcr].
        -- apply candidate_ext. intros x.
           rewrite !in_app_iff. unfold new. rewrite set_union_In. tauto.
        -- intros x Hx. destruct new as [|n0 new'] eqn:En; [destruct Hx |].
           destruct (is_corporate_email x) eqn:Cx; [| reflexivity].
           assert (Hin : In x (filter is_corporate_email
                                 (set_iter W (n0 :: new')))).
           { apply filter_In. split; [| exact Cx].
             apply (Permutation_in _ (Permutation_sym (HW _))). exact Hx. }
           rewrite Hc in Hin. destruct Hin.
      * intros E. injection E as <- <-. intros e.
        rewrite discovered_cons. unfold page_found. rewrite Hh. fold found.
        simpl discovered. rewrite app_nil_r.
        assert (Hcorp : forall x, In x (c0 :: corp)
                          <-> In x new /\ is_corporate_email x = true).
        { intros x. rewrite <- Hc. destruct new as [|n0 new'] eqn:En.
          - discriminate Hc.
          - rewrite filter_In. split; intros [H1 H2]; split; auto.
            + apply (Permutation_in _ (HW _)). exact H1.
            + apply (Permutation_in _ (Permutation_sym (HW _))). exact H1. }
        rewrite set_of_In, Hcorp. unfold candidate, new.
        rewrite set_union_In, in_app_iff. split; [tauto |].
        intros [Hin Hx]. split; [exact Hin |]. apply Hx.
        apply existsb_exists. exists c0.
        destruct (Hcorp c0) as [Hc0 _].
        destruct (Hc0 (or_introl eq_refl)) as [Hn Hcc].
        split; [| exact Hcc].
        unfold new in Hn. rewrite set_union_In in Hn.
        rewrite in_app_iff. exact Hn.
    + destruct (crawl W rest acc) as [emails' log'] eqn:Hcr.
      intros E. injection E as <- <-. intros e.
      rewrite discovered_cons. unfold page_found. rewrite Hh. simpl app.
      apply (IH acc emails' log' Hacc Hcr).
Qed.

Lemma startswith_nonempty (s p : pystr) :
  startswith s p = true -> p <> [] -> s <> [].
Proof. destruct p, s; simpl; congruence. Qed.

Lemma contains_nonempty (p s : pystr) :
  contains p s = true -> p <> [] -> s <> [].
Proof.
  destruct s as [|c s]; [| discriminate].
  destruct p; simpl; congruence.
Qed.

Lemma has_keyword_truthy (p e : pystr) :
  p <> [] -> has_keyword p e = true -> truthy e = true.
Proof.
  intros Hp H. apply contains_nonempty in H; [| exact Hp].
  destruct e; [contradiction H; reflexivity | reflexivity].
Qed.

Lemma scan_find (p : pystr) (l : list pystr) (chosen : option pystr) :
  scan p l chosen
  = match find (has_keyword p) l with Some e => Some e | None => chosen end.
Proof.
  induction l as [|e l IH]; simpl; [reflexivity |].
  unfold has_keyword at 1. destruct (contains p (lower e)); auto.
Qed.

Lemma existsb_find {A : Type} (f : A -> bool) (l : list A) :
  existsb f l = match find f l with Some _ => true | None => false end.
Proof.
  induction l as [|x l IH]; simpl; [reflexivity |].
  destruct (f x); auto.
Qed.

(** The two loops over keywords and candidates: the first keyword that a
    candidate has decides, and the first candidate with it is taken. *)
Lemma by_priority_find (ps : list pystr) (l : list pystr) :
  Forall (fun p => p <> []) ps ->
  by_priority ps l None
  = match find (fun p => existsb (has_keyword p) l) ps with
    | Some p => find (has_keyword p) l
    | None => None
    end.
Proof.
  induction 1 as [|p ps Hp _ IH]; simpl; [reflexivity |].
  rewrite scan_find, (existsb_find (has_keyword p) l).
  destruct (find (has_keyword p) l) as [e|] eqn:E.
  - destruct (find_some _ _ E) as [_ K].
    simpl. rewrite (has_keyword_truthy p e Hp K).
    first [reflexivity | symmetry; exact E].
  - simpl. exact IH.
Qed.

Lemma by_priority_truthy (ps : list pystr) (l : list pystr) (e : pystr) :
  Forall (fun p => p <> []) ps ->
  by_priority ps l None = Some e -> truthy e = true.
Proof.
  intros Hps. rewrite (by_priority_find ps l Hps).
  destruct (find _ ps) as [p|] eqn:E; [| discriminate].
  apply find_some in E. destruct E as [Hp _].
  rewrite Forall_forall in Hps.
  intros F. apply find_some in F. destruct F as [_ F].
  apply (has_keyword_truthy p e (Hps p Hp) F).
Qed.

Lemma priority_nonempty : Forall (fun p : pystr => p <> []) priority.
Proof. repeat constructor; discriminate. Qed.

Lemma existsb_perm {A : Type} (f : A -> bool) (l l' : list A) :
  Permutation l l' -> existsb f l = existsb f l'.
Proof.
  intros H. apply existsb_ext_In. intros x. split; apply Permutation_in;
    [exact H | apply Permutation_sym; exact H].
Qed.

Lemma find_agree {A : Type} (f g : A -> bool) (l : list A) :
  (forall x, f x = g x) -> find f l = find g l.
Proof.
  intros H. induction l as [|x l IH]; simpl; [reflexivity |].
  rewrite H, IH. reflexivity.
Qed.

(** The choice made on the final set is the specified one. *)
Lemma select_email_chosen (W : world) (emails : list pystr) :
  fair_iteration W -> emails <> [] ->
  chosen_as_specified (set_iter W emails) emails (select_email W emails).
Proof.
  intros HW Hne. unfold chosen_as_specified, first_keyword, select_email,
    select_with.
  rewrite (by_priority_find priority (set_iter W emails) priority_nonempty).
  assert (HF : forall p, existsb (has_keyword p) (set_iter W emails)
                         = existsb (has_keyword p) emails).
  { intros p. apply existsb_perm. apply HW. }
  rewrite (find_agree _ _ priority HF).
  destruct (find (fun p => existsb (has_keyword p) emails) priority)
    as [p|] eqn:E.
  - apply find_some in E. destruct E as [Hp E].
    rewrite <- HF, existsb_find in E.
    destruct (find (has_keyword p) (set_iter W emails)) as [e|] eqn:F;
      [| discriminate].
    pose proof priority_nonempty as PN. rewrite Forall_forall in PN.
    apply find_some in F. destruct F as [_ F].
    rewrite (has_keyword_truthy p e (PN p Hp) F). reflexivity.
  - apply sorted_head_least. exact Hne.
Qed.

(** C2.  When the crawl of a website ends with a non-empty set, that set
    holds the addresses found on the pages fetched, only the corporate
    ones when there is any; the address chosen from it is the first one,
    in the order Python iterates the set, that has the first of the
    keywords info@, contact, contacto, comercial, ventas, admin@ that any
    address of the set has; and when no address has a keyword it is the
    smallest address of the set. *)
Theorem chosen_email_as_specified (W : world) (pages emails log : list pystr) :
  fair_iteration W ->
  crawl W pages [] = (emails, log) ->
  emails <> [] ->
  (forall e, In e emails <-> candidate (discovered W log) e)
  /\ chosen_as_specified (set_iter W emails) emails (select_email W emails).
Proof.
  intros HW Hc Hne. split.
  - intros e.
    apply (crawl_candidates W pages HW [] emails log); [| exact Hc].
    intros x [].
  - apply select_email_chosen; assumption.
Qed.

Lemma sample_world_fair : fair_iteration sample_world.
Proof. intros l. apply Permutation_sym, Permutation_rev. Qed.

Lemma chosen_email_as_specified_witness :
  (forall e, In e sample_emails
             <-> candidate (discovered sample_world sample_log) e)
  /\ chosen_as_specified (set_iter sample_world sample_emails) sample_emails
       (select_email sample_world sample_emails).
Proof.
  apply (chosen_email_as_specified sample_world sample_pages
           sample_emails sample_log).
  - exact sample_world_fair.
  - vm_compute. reflexivity.
  - vm_compute. discriminate.
Defined.

Lemma startswith_app (s p q : pystr) :
  startswith s (p ++ q) = true -> startswith s p = true.
Proof.
  revert s; induction p as [|x p IH]; intros s; simpl; [reflexivity |].
  destruct s as [|y s]; [discriminate |].
  rewrite !andb_true_iff. intros [H1 H2]. auto.
Qed.

(** A text that contains a word contains every beginning of it. *)
Lemma contains_app (p q s : pystr) :
  contains (p ++ q) s = true -> contains p s = true.
Proof.
  induction s as [|c s IH]; simpl.
  - rewrite !orb_false_r. apply startswith_app.
  - rewrite !orb_true_iff. intros [H | H].
    + left. apply (startswith_app _ _ _ H).
    + right. auto.
Qed.

Lemma find_skip {A : Type} (f : A -> bool) (pre post : list A) (q : A) :
  (f q = true -> existsb f pre = true) ->
  find f (pre ++ q :: post) = find f (pre ++ post).
Proof.
  induction pre as [|a pre IH]; simpl; intros H.
  - destruct (f q); [discriminate (H eq_refl) | reflexivity].
  - destruct (f a); [reflexivity |]. apply IH. exact H.
Qed.

(** C10.  The keyword "contacto" never decides: for every set of
    candidates, in whatever order it is iterated, the address chosen is
    the one the same procedure chooses without "contacto" among the
    keywords, since an address that has "contacto" has "contact", which
    comes earlier. *)
Theorem contacto_never_decides (order : list pystr -> list pystr)
  (emails : list pystr) :
  select_with priority order emails
  = select_with priority_without_contacto order emails.
Proof.
  unfold select_with.
  assert (E : by_priority priority (order emails) None
              = by_priority priority_without_contacto (order emails) None).
  { rewrite (by_priority_find priority); [| exact priority_nonempty].
    rewrite (by_priority_find priority_without_contacto);
      [| repeat constructor; discriminate].
    change priority
      with ([py "info@"; py "contact"]
              ++ py "contacto" :: [py "comercial"; py "ventas"; py "admin@"]).
    change priority_without_contacto
      with ([py "info@"; py "contact"]
              ++ [py "comercial"; py "ventas"; py "admin@"]).
    rewrite find_skip; [reflexivity |].
    intros H. cbn [existsb].
    rewrite existsb_exists in H. destruct H as (e & He & Ke).
    assert (Kc : has_keyword (py "contact") e = true).
    { unfold has_keyword in *.
      apply (contains_app (py "contact") (py "o")). exact Ke. }
    assert (Hc : existsb (has_keyword (py "contact")) (order emails) = true).
    { apply existsb_exists. exists e. auto. }
    rewrite Hc. rewrite orb_true_r. reflexivity. }
  rewrite E. reflexivity.
Qed.

(* ================================================================== *)
(** ** init_leads.py: dedup and rank *)
(* ================================================================== *)

Lemma ranks_before_ranked (a b : lead) :
  ranks_before a b = true <-> ranked a b.
Proof.
  unfold ranks_before, ranked.
  rewrite orb_true_iff, andb_true_iff. reflexivity.
Qed.

(** On scored rows the comparison of [sort_values] is the comparison of
    the hundredths, then of the tags. *)
Lemma ranks_before_points (a b : lead) :
  scored a -> scored b ->
  ranks_before a b
  = ((points (fields b) <? points (fields a))%Z
     || ((points (fields a) =? points (fields b))%Z
         && PyStr.leb (email_tipo (fields a)) (email_tipo (fields b)))).
Proof.
  unfold scored, ranks_before. intros -> ->.
  rewrite !score_lead_points.
  destruct (tenths_order _ _ (points_tenths (fields b))
              (points_tenths (fields a))) as (_ & -> & _).
  destruct (tenths_order _ _ (points_tenths (fields a))
              (points_tenths (fields b))) as (_ & _ & ->).
  reflexivity.
Qed.

Lemma ranks_before_total (a b : lead) :
  scored a -> scored b ->
  ranks_before a b = false -> ranks_before b a = true.
Proof.
  intros Ha Hb. rewrite (ranks_before_points a b Ha Hb), (ranks_before_points b a Hb Ha).
  destruct (Z.ltb_spec (points (fields b)) (points (fields a))),
    (Z.ltb_spec (points (fields a)) (points (fields b))),
    (Z.eqb_spec (points (fields a)) (points (fields b))),
    (Z.eqb_spec (points (fields b)) (points (fields a)));
    simpl; try discriminate; try reflexivity; try lia.
  apply leb_total.
Qed.

Lemma ranks_before_trans (a b c : lead) :
  scored a -> scored b -> scored c ->
  ranks_before a b = true -> ranks_before b c = true ->
  ranks_before a c = true.
Proof.
  intros Ha Hb Hc.
  rewrite (ranks_before_points a b Ha Hb), (ranks_before_points b c Hb Hc),
    (ranks_before_points a c Ha Hc).
  destruct (Z.ltb_spec (points (fields b)) (points (fields a))),
    (Z.ltb_spec (points (fields c)) (points (fields b))),
    (Z.ltb_spec (points (fields c)) (points (fields a))),
    (Z.eqb_spec (points (fields a)) (points (fields b))),
    (Z.eqb_spec (points (fields b)) (points (fields c))),
    (Z.eqb_spec (points (fields a)) (points (fields c)));
    simpl; try discriminate; try reflexivity; try lia.
  apply leb_trans.
Qed.

Lemma StronglySorted_impl {A : Type} (R S : A -> A -> Prop) (l : list A) :
  (forall a b, R a b -> S a b) -> StronglySorted R l -> StronglySorted S l.
Proof.
  intros H. induction 1 as [|x l _ IH Hx]; constructor; auto.
  rewrite Forall_forall in *. auto.
Qed.

Lemma sort_values_ranked (rows : list lead) :
  Forall scored rows -> StronglySorted ranked (sort_values rows).
Proof.
  intros H.
  apply (StronglySorted_impl (fun a b => ranks_before a b = true)).
  - intros a b. apply ranks_before_ranked.
  - apply (sort_by_sorted ranks_before scored); auto.
    + apply ranks_before_total.
    + apply ranks_before_trans.
Qed.

Lemma same_key_pair (a b : lead) :
  same_key (company_key a) (company_key b) = same_pairb a b.
Proof. reflexivity. Qed.

Lemma same_key_eq (a b : pystr * pystr) : same_key a b = true <-> a = b.
Proof.
  destruct a as [a1 a2], b as [b1 b2]. unfold same_key. simpl.
  rewrite andb_true_iff, !eqb_eq. split.
  - intros [-> ->]. reflexivity.
  - intros E. injection E. auto.
Qed.

(** Dropping the pairs already seen is keeping the first row of each. *)
Lemma drop_from_first_of_pair (rows : list lead) :
  forall (seen : list (pystr * pystr)) (above : list lead),
    (forall k, existsb (same_key k) seen
               = existsb (fun r => same_key k (company_key r)) above) ->
    drop_from seen rows = first_of_pair above rows.
Proof.
  induction rows as [|r rest IH]; intros seen above H; simpl; [reflexivity |].
  rewrite (H (company_key r)).
  change (fun r0 : lead => same_key (company_key r) (company_key r0))
    with (same_pairb r).
  destruct (existsb (same_pairb r) above) eqn:E.
  - apply IH. intros k. rewrite existsb_app. simpl. rewrite orb_false_r.
    rewrite H. destruct (same_key k (company_key r)) eqn:K.
    + apply same_key_eq in K. subst k.
      change (fun r0 : lead => same_key (company_key r) (company_key r0))
        with (same_pairb r).
      rewrite E. reflexivity.
    + rewrite orb_false_r. reflexivity.
  - f_equal. apply IH. intros k. rewrite existsb_app. simpl.
    rewrite orb_false_r, H. apply orb_comm.
Qed.

Lemma drop_from_In (rows : list lead) (seen : list (pystr * pystr))
  (r : lead) : In r (drop_from seen rows) -> In r rows.
Proof.
  revert seen; induction rows as [|x rows IH]; intros seen; simpl; [auto |].
  destruct (existsb _ seen).
  - intros H. right. apply (IH _ H).
  - intros [-> | H]; [left; reflexivity | right; apply (IH _ H)].
Qed.

Lemma drop_from_sorted (R : lead -> lead -> Prop) (rows : list lead)
  (seen : list (pystr * pystr)) :
  StronglySorted R rows -> StronglySorted R (drop_from seen rows).
Proof.
  intros H. revert seen.
  induction H as [|x rows _ IH Hx]; intros seen; simpl; [constructor |].
  destruct (existsb _ seen); [apply IH |].
  constructor; [apply IH |].
  rewrite Forall_forall in *. intros y Hy. apply Hx.
  apply (drop_from_In _ _ _ Hy).
Qed.

(** No pair is left twice, and no pair is lost. *)
Lemma drop_from_pairs (rows : list lead) :
  forall seen : list (pystr * pystr),
    NoDup (map company_key (drop_from seen rows))
    /\ (forall r, In r (drop_from seen rows) ->
                  existsb (same_key (company_key r)) seen = false)
    /\ (forall r, In r rows ->
                  existsb (same_key (company_key r)) seen = true
                  \/ In (company_key r)
                        (map company_key (drop_from seen rows))).
Proof.
  induction rows as [|x rows IH]; intros seen; simpl.
  - repeat split; [constructor | intros r [] | intros r []].
  - destruct (existsb (same_key (company_key x)) seen) eqn:E.
    + destruct (IH seen) as (N & F & K). repeat split; auto.
      intros r [<- | Hr]; [left; exact E | apply K; exact Hr].
    + destruct (IH (company_key x :: seen)) as (N & F & K).
      repeat split.
      * simpl. constructor; [| exact N].
        intros Hin. apply in_map_iff in Hin.
        destruct Hin as (y & Ey & Hy). specialize (F y Hy).
        simpl in F. rewrite Ey in F.
        assert (T : same_key (company_key x) (company_key x) = true)
          by (apply same_key_eq; reflexivity).
        rewrite T in F. discriminate.
      * intros r [<- | Hr]; [exact E |].
        specialize (F r Hr). simpl in F.
        apply orb_false_iff in F. tauto.
      * intros r [<- | Hr]; [right; left; reflexivity |].
        destruct (K r Hr) as [H | H]; [| right; right; exact H].
        simpl in H. apply orb_true_iff in H. destruct H as [H | H].
        -- apply same_key_eq in H. right. left. symmetry. exact H.
        -- left. exact H.
Qed.

(** C8.  The stage sorts the rows by score, highest first, and within a
    score by the tag string, smallest first, under which "corporativo"
    stands before "no_encontrado" and that before "personal"; it then
    drops every row whose (name, website) pair is that of a row above
    it, so that the first row of each pair stays, ranks are kept, and no
    pair is left twice or lost. *)
Theorem dedup_and_rank_spec (rows : list lead) :
  Forall scored rows ->
  Permutation (sort_values rows) rows
  /\ StronglySorted ranked (sort_values rows)
  /\ (PyStr.ltb corporativo no_encontrado = true
      /\ PyStr.ltb no_encontrado personal = true)
  /\ dedup_and_rank rows = first_of_pair [] (sort_values rows)
  /\ StronglySorted ranked (dedup_and_rank rows)
  /\ NoDup (map company_key (dedup_and_rank rows))
  /\ (forall r, In r rows ->
                In (company_key r) (map company_key (dedup_and_rank rows))).
Proof.
  intros H. unfold dedup_and_rank, drop_duplicates.
  pose proof (sort_values_ranked rows H) as S.
  destruct (drop_from_pairs (sort_values rows) []) as (N & _ & K).
  repeat split.
  - apply sort_by_perm.
  - exact S.
  - apply drop_from_first_of_pair. intros k. reflexivity.
  - apply drop_from_sorted. exact S.
  - exact N.
  - intros r Hr.
    destruct (K r) as [F | G]; [| discriminate F | exact G].
    apply (Permutation_in _ (Permutation_sym (sort_by_perm _ rows))).
    exact Hr.
Qed.

Lemma dedup_and_rank_spec_witness :
  Permutation (sort_values sample_rows) sample_rows
  /\ StronglySorted ranked (sort_values sample_rows)
  /\ (PyStr.ltb corporativo no_encontrado = true
      /\ PyStr.ltb no_encontrado personal = true)
  /\ dedup_and_rank sample_rows = first_of_pair [] (sort_values sample_rows)
  /\ StronglySorted ranked (dedup_and_rank sample_rows)
  /\ NoDup (map company_key (dedup_and_rank sample_rows))
  /\ (forall r, In r sample_rows ->
                In (company_key r)
                   (map company_key (dedup_and_rank sample_rows))).
Proof.
  apply (dedup_and_rank_spec sample_rows).
  repeat constructor; vm_compute; reflexivity.
Defined.

(* ================================================================== *)
(** ** init_leads.py: one crawl per registrable domain *)
(* ================================================================== *)

Lemma truthy_app (a b : pystr) : truthy b = true -> truthy (a ++ b) = true.
Proof. destruct a; simpl; auto. Qed.

Lemma normalize_website_truthy (W : world) (url : pystr) :
  truthy url = true -> truthy (normalize_website W url) = true.
Proof.
  intros H. unfold normalize_website. rewrite H. simpl negb. cbv iota.
  destruct (urlparse W _) as [scheme netloc].
  apply truthy_app. reflexivity.
Qed.

Lemma in_set_set_add (xs : list pystr) (x y : pystr) :
  in_set y xs = true -> in_set y (set_add xs x) = true.
Proof.
  rewrite !in_set_In, set_add_In. auto.
Qed.

Lemma in_set_set_add_same (xs : list pystr) (x : pystr) :
  in_set x (set_add xs x) = true.
Proof. rewrite in_set_In, set_add_In. auto. Qed.

(** The website part, when the domain has been met: nothing is fetched
    and no address is looked for. *)
Lemma enrich_seen (W : world) (st : state) (site d : pystr) :
  truthy site = true -> has_domain W site d ->
  in_set d (seen_domains st) = true ->
  enrich W st site = ([], no_encontrado, st).
Proof.
  intros Hs [Hd Hne] Hin. unfold enrich. rewrite Hs, Hd, Hin.
  destruct d; [congruence | reflexivity].
Qed.

Lemma find_candidate_pages_first (W : world) (site : pystr) :
  exists page rest, find_candidate_pages W site = page :: rest.
Proof.
  unfold find_candidate_pages.
  set (base := if endswith site (py "/") then site else site ++ py "/").
  set (f := fun (unique_urls : list pystr) (p : pystr) => _).
  assert (G : forall ps x l, exists l', fold_left f ps (x :: l) = x :: l').
  { induction ps as [|p ps IH]; intros x l; simpl; [eauto |].
    unfold f at 2. destruct (in_set _ _); simpl; apply IH. }
  simpl map. simpl fold_left. unfold f at 9. simpl in_set. cbv iota.
  simpl app.
  destruct (G (map py ["contact"; "contacto"; "contact-us"; "sobre-nosotros";
                       "aviso-legal"; "legal"; "privacy"; "privacidad"]%string)
              (urljoin W base (py "")) []) as (l' & E).
  simpl map in E. simpl fold_left in E. rewrite E. simpl. eauto.
Qed.

Lemma crawl_fetches_first (W : world) (page : pystr) (rest acc : list pystr) :
  exists log', snd (crawl W (page :: rest) acc) = page :: log'.
Proof.
  simpl. destruct (negb (truthy (fetch_url W page))).
  - destruct (crawl W rest acc). simpl. eauto.
  - destruct (match set_union acc _ with [] => [] | _ :: _ => _ end).
    + destruct (crawl W rest _). simpl. eauto.
    + simpl. eauto.
Qed.

(** The website part, when the domain is new: the crawl takes place, and
    the domain is marked. *)
Lemma enrich_new (W : world) (st : state) (site d : pystr) :
  truthy site = true -> has_domain W site d ->
  in_set d (seen_domains st) = false ->
  exists e t page log',
    enrich W st site
    = (e, t, {| all_rows := all_rows st;
                seen_domains := set_add (seen_domains st) d;
                seen_places := seen_places st;
                fetched := fetched st ++ page :: log' |}).
Proof.
  intros Hs [Hd Hne] Hin. unfold enrich. rewrite Hs, Hd, Hin.
  assert (Td : truthy d = true) by (destruct d; [congruence | reflexivity]).
  rewrite Td. simpl negb. simpl andb. cbv iota.
  destruct (find_candidate_pages_first W site) as (page & rest & ->).
  destruct (crawl_fetches_first W page rest []) as (log' & L).
  destruct (crawl W (page :: rest) []) as [emails log]. simpl in L. subst log.
  destruct emails; eauto.
Qed.

(** The website part never forgets a domain, and leaves rows and places
    as they are. *)
Lemma enrich_keeps (W : world) (st : state) (site : pystr) :
  let st' := snd (enrich W st site) in
  (forall d, in_set d (seen_domains st) = true ->
             in_set d (seen_domains st') = true)
  /\ all_rows st' = all_rows st /\ seen_places st' = seen_places st.
Proof.
  unfold enrich. destruct (negb (truthy site)); [simpl; auto |].
  destruct (truthy (registered_domain W site) && _); [simpl; auto |].
  destruct (crawl W _ []) as [emails log].
  destruct emails; simpl; repeat split; auto;
    intros d Hd; destruct (truthy (registered_domain W site)); auto;
    apply in_set_set_add; exact Hd.
Qed.

Lemma process_item_keeps (W : world) (q : pystr) (st : state) (it : item)
  (d : pystr) :
  in_set d (seen_domains st) = true ->
  in_set d (seen_domains (process_item W q st it)) = true.
Proof.
  intros H. unfold process_item.
  destruct (place_id it) as [pid|]; [| exact H].
  destruct (negb (truthy pid) || in_set pid (seen_places st)); [exact H |].
  destruct (place_details W pid) as [det|]; [| exact H].
  match goal with
  | |- context [enrich W ?s ?site] =>
      pose proof (enrich_keeps W s site) as K;
      destruct (enrich W s site) as [[e t] st']
  end.
  simpl in *. apply K. exact H.
Qed.

Lemma process_all_keeps (W : world) (work : list (pystr * item))
  (st : state) (d : pystr) :
  in_set d (seen_domains st) = true ->
  in_set d (seen_domains (process_all W work st)) = true.
Proof.
  revert st; induction work as [|[q it] work IH]; intros st H; simpl; auto.
  apply IH. apply process_item_keeps. exact H.
Qed.

(** What the body of the loop does for a place not met before whose
    details are there: one row is added, made of the directory fields
    and of what the website part returned. *)
Lemma process_item_fresh (W : world) (q : pystr) (st : state)
  (pid : pystr) (det : details) (e t : pystr) (st' : state) :
  truthy pid = true ->
  in_set pid (seen_places st) = false ->
  place_details W pid = Some det ->
  enrich W {| all_rows := all_rows st; seen_domains := seen_domains st;
              seen_places := set_add (seen_places st) pid;
              fetched := fetched st |}
         (if truthy (website det) then normalize_website W (website det)
          else [])
  = (e, t, st') ->
  exists r,
    process_item W q st (place pid)
    = {| all_rows := all_rows st' ++ [r]; seen_domains := seen_domains st';
         seen_places := seen_places st'; fetched := fetched st' |}
    /\ scored r
    /\ empresa (fields r) = strip (d_name det)
    /\ direccion (fields r) = strip (formatted_address det)
    /\ telefono (fields r) = clean_phone (formatted_phone_number det)
    /\ web (fields r)
       = (if truthy (website det) then normalize_website W (website det)
          else [])
    /\ ciudad (fields r)
       = py_or (address_component (address_components det) (py "locality"))
               (address_component (address_components det)
                                  (py "postal_town"))
    /\ categoria (fields r)
       = match types det with
         | [] => []
         | _ :: _ => join (py ", ") (types det)
         end
    /\ email (fields r) = e
    /\ email_tipo (fields r) = t.
Proof.
  intros Hp Hs Hd He. unfold process_item, place.
  cbn [place_id]. rewrite Hp, Hs. cbn [negb orb]. rewrite Hd, He.
  eexists. split; [reflexivity |].
  repeat split.
Qed.

(** C7.  Of two places with the same registrable website domain, the
    first to be handled has its website crawled (when the domain was not
    met before it), and the second has not: nothing is fetched for it,
    and its row is still added, with the name, address, phone, website,
    city and category of the directory, an empty e-mail and the tag
    "no_encontrado". *)
Theorem one_crawl_per_domain (W : world) (q1 q2 : pystr) (st : state)
  (mid : list (pystr * item)) (p1 p2 : pystr) (d1 d2 : details)
  (dom : pystr) :
  let st1 := process_item W q1 st (place p1) in
  let st2 := process_all W mid st1 in
  let st3 := process_item W q2 st2 (place p2) in
  truthy p1 = true -> in_set p1 (seen_places st) = false ->
  place_details W p1 = Some d1 -> truthy (website d1) = true ->
  has_domain W (normalize_website W (website d1)) dom ->
  truthy p2 = true -> in_set p2 (seen_places st2) = false ->
  place_details W p2 = Some d2 -> truthy (website d2) = true ->
  has_domain W (normalize_website W (website d2)) dom ->
  (in_set dom (seen_domains st) = false ->
   exists page log', fetched st1 = fetched st ++ page :: log')
  /\ fetched st3 = fetched st2
  /\ exists r,
       all_rows st3 = all_rows st2 ++ [r]
       /\ scored r
       /\ empresa (fields r) = strip (d_name d2)
       /\ direccion (fields r) = strip (formatted_address d2)
       /\ telefono (fields r) = clean_phone (formatted_phone_number d2)
       /\ web (fields r) = normalize_website W (website d2)
       /\ ciudad (fields r)
          = py_or (address_component (address_components d2) (py "locality"))
                  (address_component (address_components d2)
                                     (py "postal_town"))
       /\ categoria (fields r)
          = match types d2 with
            | [] => []
            | _ :: _ => join (py ", ") (types d2)
            end
       /\ email (fields r) = []
       /\ email_tipo (fields r) = no_encontrado.
Proof.
  intros st1 st2 st3 Hp1 Hs1 Hd1 Hw1 Hdom1 Hp2 Hs2 Hd2 Hw2 Hdom2.
  set (m1 := {| all_rows := all_rows st; seen_domains := seen_domains st;
                seen_places := set_add (seen_places st) p1;
                fetched := fetched st |}).
  set (site1 := normalize_website W (website d1)) in *.
  set (site2 := normalize_website W (website d2)) in *.
  assert (T1 : truthy site1 = true)
    by (apply normalize_website_truthy; exact Hw1).
  assert (T2 : truthy site2 = true)
    by (apply normalize_website_truthy; exact Hw2).
  (* the first place *)
  assert (First : in_set dom (seen_domains st) = false ->
                  (exists page log', fetched st1 = fetched st ++ page :: log')
                  /\ in_set dom (seen_domains st1) = true).
  { intros Hnew.
    destruct (enrich_new W m1 site1 dom T1 Hdom1 Hnew)
      as (e & t & page & log' & En).
    edestruct (process_item_fresh W q1 st p1 d1 e t) as (r & E & _);
      [exact Hp1 | exact Hs1 | exact Hd1 | rewrite Hw1; exact En |].
    unfold st1. rewrite E. simpl. split; [eauto |].
    apply in_set_set_add_same. }
  assert (Seen1 : in_set dom (seen_domains st1) = true).
  { destruct (in_set dom (seen_domains st)) eqn:Hin.
    - apply process_item_keeps. exact Hin.
    - apply First. reflexivity. }
  assert (Seen2 : in_set dom (seen_domains st2) = true)
    by (apply process_all_keeps; exact Seen1).
  (* the second place *)
  set (m2 := {| all_rows := all_rows st2; seen_domains := seen_domains st2;
                seen_places := set_add (seen_places st2) p2;
                fetched := fetched st2 |}).
  pose proof (enrich_seen W m2 site2 dom T2 Hdom2 Seen2) as En.
  destruct (process_item_fresh W q2 st2 p2 d2 [] no_encontrado m2
              Hp2 Hs2 Hd2) as (r & E & Hr).
  { rewrite Hw2. exact En. }
  rewrite Hw2 in Hr.
  split; [intros Hnew; apply First; exact Hnew |].
  unfold st3. rewrite E. simpl. split; [reflexivity |].
  exists r. split; [reflexivity | exact Hr].
Qed.

Lemma one_crawl_per_domain_witness :
  let W := sample_world in
  let q := py "mantenimiento Madrid" in
  let d2 := sample_details "Acme Getafe" "+34 910 000 002" in
  let st1 := process_item W q initial (place (py "p1")) in
  let st2 := process_all W [] st1 in
  let st3 := process_item W q st2 (place (py "p2")) in
  (in_set (py "acme.es") (seen_domains initial) = false ->
   exists page log', fetched st1 = fetched initial ++ page :: log')
  /\ fetched st3 = fetched st2
  /\ exists r,
       all_rows st3 = all_rows st2 ++ [r]
       /\ scored r
       /\ empresa (fields r) = strip (d_name d2)
       /\ direccion (fields r) = strip (formatted_address d2)
       /\ telefono (fields r) = clean_phone (formatted_phone_number d2)
       /\ web (fields r) = normalize_website W (website d2)
       /\ ciudad (fields r)
          = py_or (address_component (address_components d2) (py "locality"))
                  (address_component (address_components d2)
                                     (py "postal_town"))
       /\ categoria (fields r)
          = match types d2 with
            | [] => []
            | _ :: _ => join (py ", ") (types d2)
            end
       /\ email (fields r) = []
       /\ email_tipo (fields r) = no_encontrado.
Proof.
  apply (one_crawl_per_domain sample_world (py "mantenimiento Madrid")
           (py "mantenimiento Madrid") initial [] (py "p1") (py "p2")
           (sample_details "Acme Madrid" "+34 910 000 001")
           (sample_details "Acme Getafe" "+34 910 000 002")
           (py "acme.es")).
  - reflexivity.
  - reflexivity.
  - reflexivity.
  - reflexivity.
  - split; [reflexivity | discriminate].
  - reflexivity.
  - vm_compute. reflexivity.
  - reflexivity.
  - reflexivity.
  - split; [reflexivity | discriminate].
Defined.

(* ================================================================== *)
(** ** Further properties: strings, phones and address components *)
(* ================================================================== *)

Import Props.

Lemma is_space_iff (c : N) :
  is_space c = true
  <-> ((9 <= c <= 13) \/ (28 <= c <= 32) \/ c = 133 \/ c = 160 \/ c = 5760
       \/ (8192 <= c <= 8202) \/ c = 8232 \/ c = 8233 \/ c = 8239
       \/ c = 8287 \/ c = 12288)%N.
Proof.
  unfold is_space, between.
  rewrite !orb_true_iff, !andb_true_iff, !N.leb_le, !N.eqb_eq. tauto.
Qed.


















(** [address_component] gives the name of the first component that
    carries the type, and the empty string when none does. *)
Theorem address_component_first (comps : list component) (typ : pystr) :
  (address_component comps typ = []
   /\ forallb (fun c => negb (has_type typ c)) comps = true)
  \/ exists pre c post,
       comps = pre ++ c :: post
       /\ forallb (fun c' => negb (has_type typ c')) pre = true
       /\ has_type typ c = true
       /\ address_component comps typ = long_name c.
Proof.
  induction comps as [|c comps IH]; simpl.
  - left. auto.
  - fold (has_type typ c). destruct (has_type typ c) eqn:E.
    + right. exists [], c, comps. auto.
    + destruct IH as [[H1 H2] | (pre & c' & post & -> & H1 & H2 & H3)].
      * left. auto.
      * right. exists (c :: pre), c', post. simpl. rewrite E. auto.
Qed.

(* ================================================================== *)
(** ** Further properties: candidate pages and the crawl *)
(* ================================================================== *)

Lemma NoDup_snoc (xs : list pystr) (x : pystr) :
  NoDup xs -> ~ In x xs -> NoDup (xs ++ [x]).
Proof.
  intros H Hx. induction H as [|y xs Hy H IH]; simpl.
  - constructor; [intros [] | constructor].
  - constructor.
    + rewrite in_app_iff. simpl. intros [K | [K | []]]; [tauto |].
      apply Hx. left. symmetry. exact K.
    + apply IH. intros K. apply Hx. right. exact K.
Qed.

Lemma set_add_NoDup (xs : list pystr) (x : pystr) :
  NoDup xs -> NoDup (set_add xs x).
Proof.
  intros H. unfold set_add. destruct (in_set x xs) eqn:E; [exact H |].
  apply NoDup_snoc; [exact H |]. rewrite <- in_set_In, E. discriminate.
Qed.

Lemma in_set_false (x : pystr) (xs : list pystr) :
  in_set x xs = false <-> ~ In x xs.
Proof.
  rewrite <- in_set_In. destruct (in_set x xs); split; congruence.
Qed.

(** Joining paths to a base and keeping each result once. *)
Lemma unique_urls_fold (j : pystr -> pystr) (ps : list pystr) :
  forall acc : list pystr,
    NoDup acc ->
    let out :=
      fold_left (fun unique_urls p =>
                   if in_set (j p) unique_urls then unique_urls
                   else unique_urls ++ [j p]) ps acc in
    NoDup out
    /\ (exists more, out = acc ++ more)
    /\ (forall u, In u out -> In u acc \/ exists p, In p ps /\ u = j p).
Proof.
  induction ps as [|p ps IH]; intros acc Hacc; simpl.
  - repeat split; auto. exists []. rewrite app_nil_r. reflexivity.
  - destruct (in_set (j p) acc) eqn:E.
    + destruct (IH acc Hacc) as (N & M & I). repeat split; auto.
      intros u Hu. destruct (I u Hu) as [K | (q & Hq & ->)]; eauto.
    + destruct (IH (acc ++ [j p])) as (N & (more & M) & I).
      { apply NoDup_snoc; [exact Hacc | apply in_set_false; exact E]. }
      repeat split; auto.
      * exists ([j p] ++ more). rewrite M, <- app_assoc. reflexivity.
      * intros u Hu. destruct (I u Hu) as [K | (q & Hq & ->)]; eauto.
        apply in_app_iff in K. destruct K as [K | [<- | []]]; eauto.
Qed.

Lemma firstn_NoDup {A : Type} (n : nat) (l : list A) :
  NoDup l -> NoDup (firstn n l).
Proof.
  intros H. rewrite <- (firstn_skipn n l) in H.
  apply (NoDup_app_remove_r _ _ H).
Qed.

Lemma firstn_In {A : Type} (n : nat) (l : list A) (x : A) :
  In x (firstn n l) -> In x l.
Proof.
  intros H. rewrite <- (firstn_skipn n l). apply in_or_app. left. exact H.
Qed.

(** [find_candidate_pages] gives between one and five pages, no page
    twice, the home page first, each one the website joined with one of
    the fixed paths. *)
Theorem find_candidate_pages_bounded (W : world) (base_url : pystr) :
  let pages := find_candidate_pages W base_url in
  1 <= length pages <= 5
  /\ NoDup pages
  /\ hd [] pages = urljoin W (with_slash base_url) (py "")
  /\ forall u, In u pages ->
               exists p, In p candidate_paths
                         /\ u = urljoin W (with_slash base_url) p.
Proof.
  cbv zeta.
  change (find_candidate_pages W base_url)
    with (firstn 5
            (fold_left (fun unique_urls p =>
                          if in_set (urljoin W (with_slash base_url) p)
                               unique_urls
                          then unique_urls
                          else unique_urls
                                 ++ [urljoin W (with_slash base_url) p])
                       (tl candidate_paths)
                       [urljoin W (with_slash base_url) (py "")])).
  destruct (unique_urls_fold (urljoin W (with_slash base_url))
              (tl candidate_paths)
              [urljoin W (with_slash base_url) (py "")])
    as (N & (more & M) & I).
  { constructor; [intros [] | constructor]. }
  cbv zeta in N, M, I. rewrite M in *. simpl app in *.
  set (home := urljoin W (with_slash base_url) (py "")) in *.
  assert (L : length (firstn 5 (home :: more)) = S (length (firstn 4 more)))
    by reflexivity.
  pose proof (firstn_le_length 4 more) as B.
  split; [lia |]. split; [apply firstn_NoDup; exact N |].
  split; [reflexivity |].
  intros u Hu. apply firstn_In in Hu.
  destruct (I u Hu) as [[<- | []] | (p & Hp & ->)].
  - exists (py ""). split; [left; reflexivity | reflexivity].
  - exists p. split; [right; exact Hp | reflexivity].
Qed.

(** The crawl fetches the pages in order and stops before the end only
    when it has found a corporate address; the set it then returns is
    not empty and holds corporate addresses only. *)
Theorem crawl_stops_on_corporate (W : world) (pages acc : list pystr) :
  exists rest,
    pages = snd (crawl W pages acc) ++ rest
    /\ (rest <> [] ->
        fst (crawl W pages acc) <> []
        /\ forallb is_corporate_email (fst (crawl W pages acc)) = true).
Proof.
  revert acc; induction pages as [|page pages IH]; intros acc; simpl.
  - exists []. split; [reflexivity | congruence].
  - destruct (negb (truthy (fetch_url W page))).
    + destruct (IH acc) as (rest & E & H).
      destruct (crawl W pages acc) as [emails log]. simpl in *.
      exists rest. split; [congruence | exact H].
    + set (new := set_union acc (emails_in W (fetch_url W page))).
      destruct (match new with
                | [] => []
                | _ :: _ => filter is_corporate_email (set_iter W new)
                end) as [|c0 corp] eqn:Hc.
      * destruct (IH new) as (rest & E & H).
        destruct (crawl W pages new) as [emails log]. simpl in *.
        exists rest. split; [congruence | exact H].
      * simpl. exists pages. split; [reflexivity |]. intros _.
        assert (Hall : forall x, In x (c0 :: corp)
                                 -> is_corporate_email x = true).
        { intros x Hx. rewrite <- Hc in Hx. destruct new; [destruct Hx |].
          apply filter_In in Hx. tauto. }
        split.
        -- intros E. assert (K : In c0 (set_of (c0 :: corp)))
             by (apply set_of_In; left; reflexivity).
           rewrite E in K. destruct K.
        -- apply forallb_forall. intros x Hx.
           apply Hall. apply (proj1 (set_of_In _ _) Hx).
Qed.

Lemma chosen_in_set (iter cands : list pystr) (c : pystr) :
  Permutation iter cands -> chosen_as_specified iter cands c -> In c cands.
Proof.
  intros HP. unfold chosen_as_specified.
  destruct (first_keyword cands) as [p|].
  - intros F. apply find_some in F. destruct F as [F _].
    apply (Permutation_in _ HP F).
  - tauto.
Qed.

Lemma is_corporate_classified (e : pystr) :
  is_corporate_email e = true -> classify_email e = corporativo.
Proof.
  intros H. unfold classify_email. rewrite H.
  destruct e; [discriminate H | reflexivity].
Qed.

(** After a crawl that found something, the address chosen is one that
    was found on a page fetched, and it is a corporate one whenever one
    was found. *)
Theorem chosen_is_found_corporate_first (W : world) (pages : list pystr) :
  fair_iteration W ->
  fst (crawl W pages []) <> [] ->
  let chosen := select_email W (fst (crawl W pages [])) in
  let found := discovered W (snd (crawl W pages [])) in
  In chosen found
  /\ (existsb is_corporate_email found = true ->
      classify_email chosen = corporativo).
Proof.
  intros HW Hne. cbv zeta.
  destruct (crawl W pages []) as [emails log] eqn:E. simpl in *.
  pose proof (select_email_chosen W emails HW Hne) as C.
  apply chosen_in_set in C; [| apply HW].
  apply (crawl_candidates W pages HW [] emails log) in C;
    [| intros x [] | exact E].
  destruct C as [C1 C2]. split; [exact C1 |].
  intros H. apply is_corporate_classified. auto.
Qed.

Lemma chosen_is_found_corporate_first_witness :
  let chosen := select_email sample_world
                  (fst (crawl sample_world sample_pages [])) in
  let found := discovered sample_world
                 (snd (crawl sample_world sample_pages [])) in
  In chosen found
  /\ (existsb is_corporate_email found = true ->
      classify_email chosen = corporativo).
Proof.
  apply (chosen_is_found_corporate_first sample_world sample_pages).
  - exact sample_world_fair.
  - vm_compute. discriminate.
Defined.

(* ================================================================== *)
(** ** Further properties: the main loop and its result *)
(* ================================================================== *)

(** The website part tags the address it returns with its class, and
    touches nothing of the state but the domains and the pages fetched. *)
Lemma enrich_result (W : world) (st : state) (site : pystr) :
  let '(e, t, st') := enrich W st site in
  t = classify_email e
  /\ all_rows st' = all_rows st /\ seen_places st' = seen_places st
  /\ (seen_domains st' = seen_domains st
      \/ exists d, d <> [] /\ seen_domains st' = set_add (seen_domains st) d).
Proof.
  unfold enrich. destruct (negb (truthy site)); [simpl; auto |].
  destruct (truthy (registered_domain W site) && _); [simpl; auto |].
  destruct (crawl W _ []) as [emails log].
  assert (D : (if truthy (registered_domain W site)
               then set_add (seen_domains st) (registered_domain W site)
               else seen_domains st) = seen_domains st
              \/ exists d, d <> []
                   /\ (if truthy (registered_domain W site)
                       then set_add (seen_domains st)
                              (registered_domain W site)
                       else seen_domains st) = set_add (seen_domains st) d).
  { destruct (registered_domain W site) as [|c d] eqn:E; simpl; [auto |].
    right. exists (c :: d). split; [discriminate | reflexivity]. }
  destruct emails; simpl; auto.
Qed.

Lemma process_item_coherent (W : world) (q : pystr) (st : state) (it : item) :
  Forall coherent (all_rows st) ->
  Forall coherent (all_rows (process_item W q st it)).
Proof.
  intros H. unfold process_item.
  destruct (place_id it) as [pid|]; [| exact H].
  destruct (negb (truthy pid) || in_set pid (seen_places st)); [exact H |].
  destruct (place_details W pid) as [det|]; [| exact H].
  match goal with
  | |- context [enrich W ?s ?site] =>
      pose proof (enrich_result W s site) as K;
      destruct (enrich W s site) as [[e t] st']
  end.
  destruct K as (T & R & _). simpl in *. rewrite R.
  apply Forall_app. split; [exact H |].
  constructor; [| constructor].
  repeat split. simpl. exact T.
Qed.

Lemma fold_invariant {S A : Type} (P : S -> Prop) (f : S -> A -> S)
  (l : list A) (s : S) :
  (forall s a, P s -> P (f s a)) -> P s -> P (fold_left f l s).
Proof.
  intros H. revert s; induction l as [|a l IH]; intros s Hs; simpl; auto.
Qed.

Lemma collect_coherent (W : world) (queries : list pystr) :
  Forall coherent (all_rows (collect W queries)).
Proof.
  unfold collect.
  apply (fold_invariant (fun st => Forall coherent (all_rows st))).
  - intros st q Hst. unfold process_query.
    apply (fold_invariant (fun st => Forall coherent (all_rows st)));
      [| exact Hst].
    intros st' it. apply process_item_coherent.
  - constructor.
Qed.

(** Every row [main] collects is scored by [score_lead], carries the tag
    that [classify_email] gives to its own address, and names its
    source. *)
Theorem collected_rows_coherent (W : world) (queries : list pystr) :
  Forall coherent (all_rows (collect W queries)).
Proof. apply collect_coherent. Qed.

Lemma set_add_length_new (xs : list pystr) (x : pystr) :
  in_set x xs = false -> length (set_add xs x) = S (length xs).
Proof.
  intros E. unfold set_add. rewrite E, length_app. simpl. lia.
Qed.

Lemma set_add_Forall (P : pystr -> Prop) (xs : list pystr) (x : pystr) :
  Forall P xs -> P x -> Forall P (set_add xs x).
Proof.
  intros H Hx. unfold set_add. destruct (in_set x xs); [exact H |].
  apply Forall_app. split; [exact H | constructor; [exact Hx | constructor]].
Qed.

Lemma process_item_tidy (W : world) (q : pystr) (st : state) (it : item) :
  tidy st -> tidy (process_item W q st it).
Proof.
  intros (NP & ND & FD & FP & L). unfold process_item.
  destruct (place_id it) as [pid|]; [| repeat split; assumption].
  destruct (truthy pid) eqn:Tp; simpl negb; simpl orb;
    [| repeat split; assumption].
  destruct (in_set pid (seen_places st)) eqn:Sp; [repeat split; assumption |].
  assert (Hp : pid <> []) by (destruct pid; [discriminate Tp | discriminate]).
  pose proof (set_add_NoDup _ pid NP) as NP'.
  pose proof (set_add_Forall _ _ pid FP Hp) as FP'.
  pose proof (set_add_length_new _ _ Sp) as LP.
  destruct (place_details W pid) as [det|].
  - match goal with
    | |- context [enrich W ?s ?site] =>
        pose proof (enrich_result W s site) as K;
        destruct (enrich W s site) as [[e t] st']
    end.
    destruct K as (_ & R & P & D). simpl in *.
    unfold tidy. simpl. rewrite P, R, length_app. simpl.
    repeat split; try assumption; try lia.
    + destruct D as [-> | (d & Hd & ->)];
        [assumption | apply set_add_NoDup; assumption].
    + destruct D as [-> | (d & Hd & ->)];
        [assumption | apply set_add_Forall; assumption].
  - unfold tidy. simpl. repeat split; try assumption. lia.
Qed.

(** Throughout a run no place and no domain is recorded twice, no empty
    domain or place is recorded, and there are never more rows than
    places recorded: a place gives one row at most. *)
Theorem collect_tidy (W : world) (queries : list pystr) :
  tidy (collect W queries).
Proof.
  unfold collect. apply (fold_invariant tidy).
  - intros st q Hst. unfold process_query.
    apply (fold_invariant tidy); [| exact Hst].
    intros st' it. apply process_item_tidy.
  - unfold tidy, initial. simpl.
    repeat split; try constructor.
Qed.




Local Open Scope float_scope.

(** The score is 1 exactly when the five things it counts are all there
    and 0 exactly when none is; the sum never passes 1, so that [min]
    leaves it as it is and only the rounding acts. *)
Theorem score_lead_extremes (r : row) :
  (score_lead r =? 1) = all_present r
  /\ (score_lead r =? 0) = none_present r
  /\ py_min (raw_score r) 1 = raw_score r
  /\ score_lead r = round2 (raw_score r).
Proof.
  unfold score_lead, raw_score, all_present, none_present.
  fold (has_corporate_email r).
  destruct (truthy (web r)), (has_corporate_email r), (truthy (telefono r)),
    (truthy (ciudad r)), (truthy (categoria r));
    vm_compute; repeat split; reflexivity.
Qed.

Local Open Scope nat_scope.

Lemma sort_by_fixed {A : Type} (le : A -> A -> bool) (l : list A) :
  StronglySorted (fun a b => le a b = true) l -> sort_by le l = l.
Proof.
  induction 1 as [|x l Hl IH Hx]; simpl; [reflexivity |].
  rewrite IH. destruct l as [|y l']; simpl; [reflexivity |].
  inversion Hx as [|? ? Hxy _]; subst. rewrite Hxy. reflexivity.
Qed.

Lemma drop_from_fixed (rows : list lead) :
  forall seen : list (pystr * pystr),
    NoDup (map company_key rows) ->
    (forall r, In r rows ->
               existsb (same_key (company_key r)) seen = false) ->
    drop_from seen rows = rows.
Proof.
  induction rows as [|r rows IH]; intros seen N H; simpl; [reflexivity |].
  rewrite (H r (or_introl eq_refl)). f_equal.
  inversion N as [|? ? Hr N']; subst.
  apply IH; [exact N' |].
  intros r' Hr'. simpl. rewrite (H r' (or_intror Hr')), orb_false_r.
  destruct (same_key (company_key r') (company_key r)) eqn:E; [| reflexivity].
  apply same_key_eq in E. exfalso. apply Hr. rewrite <- E.
  apply in_map. exact Hr'.
Qed.

(** Ranking and deduplicating a second time changes nothing. *)
Theorem dedup_and_rank_idempotent (rows : list lead) :
  Forall scored rows ->
  dedup_and_rank (dedup_and_rank rows) = dedup_and_rank rows.
Proof.
  intros S.
  assert (Sorted1 : StronglySorted (fun a b => ranks_before a b = true)
                      (dedup_and_rank rows)).
  { unfold dedup_and_rank, drop_duplicates. apply drop_from_sorted.
    apply (sort_by_sorted ranks_before scored); auto.
    - apply ranks_before_total.
    - apply ranks_before_trans. }
  unfold dedup_and_rank at 1. unfold sort_values.
  rewrite (sort_by_fixed ranks_before _ Sorted1).
  unfold drop_duplicates. apply drop_from_fixed.
  - apply (drop_from_pairs (sort_values rows) []).
  - intros r _. reflexivity.
Qed.

Lemma dedup_and_rank_idempotent_witness :
  dedup_and_rank (dedup_and_rank sample_rows) = dedup_and_rank sample_rows.
Proof.
  apply (dedup_and_rank_idempotent sample_rows).
  repeat constructor; vm_compute; reflexivity.
Defined.

(* ================================================================== *)
(** ** Further properties: the text signal scorer and the harvest *)
(* ================================================================== *)

Local Open Scope Z_scope.

Lemma total_between (rules : list (regex * Z)) (t : pystr) :
  least rules <= total rules t <= most rules.
Proof.
  unfold least, total, most.
  induction rules as [|[pattern value] rules IH]; simpl; [lia |].
  unfold contribution at 1 3. simpl.
  destruct (search pattern t); lia.
Qed.

(** Whatever the text, the score lies between -54 and 55: what all the
    negative rules take together and what all the positive ones give. *)
Theorem compute_score_bounded (text : pystr) :
  -54 <= compute_score text <= 55.
Proof.
  unfold compute_score. rewrite !fold_add_signal.
  pose proof (total_between POSITIVE_SIGNALS (lower text)) as P.
  pose proof (total_between NEGATIVE_SIGNALS (lower text)) as Q.
  change (least POSITIVE_SIGNALS) with 0 in P.
  change (most POSITIVE_SIGNALS) with 55 in P.
  change (least NEGATIVE_SIGNALS) with (-54) in Q.
  change (most NEGATIVE_SIGNALS) with 0 in Q.
  lia.
Qed.

(** [infer_problem] always gives one of its six labels, and the last
    one exactly when none of the five patterns is found. *)
Theorem infer_problem_label (text : pystr) :
  In (infer_problem text) problem_labels
  /\ (infer_problem text = label_unspecified
      <-> search pattern_failed (lower text) = false
          /\ search pattern_integration (lower text) = false
          /\ search pattern_manual (lower text) = false
          /\ search pattern_leads (lower text) = false
          /\ search pattern_reporting (lower text) = false).
Proof.
  unfold infer_problem, problem_labels.
  destruct (search pattern_failed (lower text));
    [split; [simpl; tauto | split; [discriminate | intros [H _]; discriminate]] |].
  destruct (search pattern_integration (lower text));
    [split; [simpl; tauto | split; [discriminate | intros (_ & H & _); discriminate]] |].
  destruct (search pattern_manual (lower text));
    [split; [simpl; tauto | split; [discriminate | intros (_ & _ & H & _); discriminate]] |].
  destruct (search pattern_leads (lower text));
    [split; [simpl; tauto | split; [discriminate | intros (_ & _ & _ & H & _); discriminate]] |].
  destruct (search pattern_reporting (lower text));
    [split; [simpl; tauto | split; [discriminate | intros (_ & _ & _ & _ & H); discriminate]] |].
  split; [simpl; tauto | tauto].
Qed.


Lemma scrape_offers_app (source_name today : pystr)
  (offers : list Harvest.offer) (rows : list Harvest.posting) :
  Harvest.scrape_offers source_name today offers rows
  = rows ++ Harvest.scrape_offers source_name today offers [].
Proof.
  revert rows; induction offers as [|o offers IH]; intros rows; simpl.
  - rewrite app_nil_r. reflexivity.
  - destruct (Harvest.title_el o) as [a|]; [| apply IH].
    destruct (Harvest.a_href a) as [link|];
      [| rewrite app_nil_r; reflexivity].
    rewrite IH. rewrite (IH [_]). rewrite app_assoc. reflexivity.
Qed.

Lemma startswith_slash_root (link : pystr) :
  startswith (Harvest.site_root ++ link) (py "/") = false.
Proof. reflexivity. Qed.

Lemma scrape_offers_facts (source_name today : pystr)
  (offers : list Harvest.offer) :
  let rows := Harvest.scrape_offers source_name today offers [] in
  Forall (well_scored source_name) rows
  /\ Forall (fun r => startswith (Harvest.url r) (py "/") = false) rows
  /\ (length rows <= length offers)%nat.
Proof.
  cbv zeta. induction offers as [|o offers (IH1 & IH2 & IH3)].
  - repeat split; constructor.
  - cbn [Harvest.scrape_offers length].
    destruct (Harvest.title_el o) as [a|].
    + destruct (Harvest.a_href a) as [link|].
      * rewrite scrape_offers_app. cbn [app length].
        split; [| split].
        -- constructor; [| exact IH1]. repeat split.
        -- constructor; [| exact IH2]. cbn [Harvest.url].
           destruct (startswith link (py "/")) eqn:E;
             [apply startswith_slash_root | exact E].
        -- lia.
      * repeat split; try constructor. cbn [length]. lia.
    + repeat split; try assumption. lia.
Qed.

(** Every row made from a listing carries the score and the label of
    its own title and description, no company, and the name of the
    source; no row keeps a link relative to the site; and there are no
    more rows than offers. *)
Theorem scrape_offers_rows (source_name today : pystr)
  (offers : list Harvest.offer) :
  let rows := Harvest.scrape_offers source_name today offers [] in
  Forall (well_scored source_name) rows
  /\ Forall (fun r => startswith (Harvest.url r) (py "/") = false) rows
  /\ (length rows <= length offers)%nat.
Proof. apply scrape_offers_facts. Qed.

(** An offer whose link has no "href" ends the source: the rows made
    before it are kept, the offers after it are not looked at. *)
Theorem scrape_stops_at_broken_link (source_name today : pystr)
  (before after : list Harvest.offer) (o : Harvest.offer) :
  broken_link o ->
  Harvest.scrape_offers source_name today (before ++ o :: after) []
  = Harvest.scrape_offers source_name today before [].
Proof.
  intros (a & Ha & Hh).
  generalize (@nil Harvest.posting) as rows.
  induction before as [|b before IH]; intros rows; simpl.
  - rewrite Ha, Hh. reflexivity.
  - destruct (Harvest.title_el b) as [ab|]; [| apply IH].
    destruct (Harvest.a_href ab); [apply IH | reflexivity].
Qed.

Lemma scrape_stops_at_broken_link_witness :
  Harvest.scrape_offers (py "tecnoempleo_backend") (py "2024-05-01")
    (firstn 2 sample_offers ++ nth 2 sample_offers (sample_offer [] [] None)
       :: skipn 3 sample_offers) []
  = Harvest.scrape_offers (py "tecnoempleo_backend") (py "2024-05-01")
      (firstn 2 sample_offers) [].
Proof.
  apply (scrape_stops_at_broken_link (py "tecnoempleo_backend")
           (py "2024-05-01") (firstn 2 sample_offers)
           (skipn 3 sample_offers)
           (nth 2 sample_offers (sample_offer [] [] None))).
  eexists. split; reflexivity.
Defined.






(* ================================================================== *)
(** ** Further properties: paging through the text search *)
(* ================================================================== *)

Local Open Scope nat_scope.

Lemma search_loop_more_fuel (svc : Places.service) (query : pystr)
  (fuel n : nat) :
  forall tok acc pc sent r,
    Places.search_loop fuel svc query tok acc pc sent = Some r ->
    Places.search_loop (fuel + n) svc query tok acc pc sent = Some r.
Proof.
  induction fuel as [|fuel IH]; intros tok acc pc sent r; simpl;
    [discriminate |].
  destruct (negb _ || _ || _); [auto | apply IH].
Qed.

Lemma search_loop_ok (svc : Places.service) (query : pystr) (fuel : nat) :
  forall tok acc pc sent,
    1 <= fuel -> 3 <= fuel + pc ->
    exists more,
      Places.search_loop fuel svc query tok acc pc sent
      = Some (acc ++ Places.pages_read svc query (tok :: more),
              sent ++ tok :: more)
      /\ length more + S pc <= Nat.max 3 (S pc)
      /\ Places.chained svc query (tok :: more).
Proof.
  induction fuel as [|fuel IH]; intros tok acc pc sent H1 H3; [lia |].
  cbn [Places.search_loop].
  assert (Stop : exists more,
             Some (acc ++ Places.results (svc query tok), sent ++ [tok])
             = Some (acc ++ Places.pages_read svc query (tok :: more),
                     sent ++ tok :: more)
             /\ length more + S pc <= Nat.max 3 (S pc)
             /\ Places.chained svc query (tok :: more)).
  { exists []. unfold Places.pages_read. cbn [flat_map length Places.chained].
    rewrite app_nil_r. repeat split. lia. }
  destruct (negb (Places.token_truthy
                    (Places.next_page_token (svc query tok)))) eqn:T;
    [exact Stop |].
  destruct (Places.MAX_RESULTS_PER_QUERY
            <=? length (acc ++ Places.results (svc query tok)));
    [exact Stop |].
  destruct (3 <=? S pc) eqn:P; [exact Stop |].
  apply Nat.leb_gt in P. cbn [orb].
  destruct (IH (Places.next_page_token (svc query tok))
               (acc ++ Places.results (svc query tok)) (S pc)
               (sent ++ [tok])) as (more & E & L & C); try lia.
  exists (Places.next_page_token (svc query tok) :: more).
  rewrite E. repeat split.
  - unfold Places.pages_read. cbn [flat_map].
    rewrite <- !app_assoc. reflexivity.
  - cbn [length]. lia.
  - apply negb_false_iff in T. exact T.
  - exact C.
Qed.

(** The text search ends after one to three requests, the first without
    a page token and each later one with the token of the answer before;
    it gives the first hundred at most of the results of the answers, in
    their order; and three turns of the loop are always enough. *)
Theorem places_text_search_pages (svc : Places.service) (query : pystr) :
  exists found sent,
    Places.places_text_search svc query = Some (found, sent)
    /\ length found <= 100
    /\ 1 <= length sent <= 3
    /\ hd_error sent = Some None
    /\ Places.chained svc query sent
    /\ found = firstn 100 (Places.pages_read svc query sent)
    /\ forall n, Places.places_text_search_with (3 + n) svc query
                 = Some (found, sent).
Proof.
  destruct (search_loop_ok svc query 3 None [] 0 []) as (more & E & L & C);
    try lia.
  simpl app in E.
  exists (firstn 100 (Places.pages_read svc query (None :: more))),
    (None :: more).
  unfold Places.places_text_search, Places.places_text_search_with.
  rewrite E. repeat split; auto.
  - apply firstn_le_length.
  - simpl. lia.
  - simpl. simpl in L. lia.
  - intros n. rewrite (search_loop_more_fuel svc query 3 n _ _ _ _ _ E).
    reflexivity.
Qed.

(* ================================================================== *)
(** ** Further properties: extracting addresses from a page *)
(* ================================================================== *)

Lemma walk_app (prev : option N) (a b : pystr) :
  walk (walk prev a) b = walk prev (a ++ b).
Proof. unfold walk. rewrite fold_left_app. reflexivity. Qed.

Section FirstFacts.

Context {X : Type}.
Variable k : option N -> pystr -> option X.

Lemma eat_first_sound (l : pystr) (prev : option N) (s : pystr) (x : X) :
  Extractor.eat_first k l prev s = Some x ->
  exists b, s = l ++ b /\ k (walk prev l) b = Some x.
Proof.
  revert prev s; induction l as [|y l IH]; intros prev s; simpl.
  - intros H. exists s. auto.
  - destruct s as [|c s]; [discriminate |].
    destruct (N.eqb_spec c y) as [-> | _]; [| discriminate].
    intros H. destruct (IH _ _ H) as (b & -> & K). exists b. auto.
Qed.

Lemma many_first_sound (f : N -> bool) (prev : option N) (s : pystr)
  (x : X) :
  Extractor.many_first k f prev s = Some x ->
  exists a b, s = a ++ b /\ forallb f a = true
              /\ k (walk prev a) b = Some x.
Proof.
  revert prev; induction s as [|c s IH]; intros prev; simpl.
  - intros H. exists [], []. auto.
  - destruct (f c) eqn:Fc; [| intros H; exists [], (c :: s); auto].
    destruct (Extractor.many_first k f (Some c) s) as [y|] eqn:E.
    + intros H. injection H as ->.
      destruct (IH _ E) as (a & b & -> & Fa & K).
      exists (c :: a), b. simpl. rewrite Fc, Fa. auto.
    + intros H. exists [], (c :: s). auto.
Qed.

Lemma at_least_first_sound (n : nat) (f : N -> bool) (prev : option N)
  (s : pystr) (x : X) :
  Extractor.at_least_first k n f prev s = Some x ->
  exists a b, s = a ++ b /\ n <= length a /\ forallb f a = true
              /\ k (walk prev a) b = Some x.
Proof.
  revert prev s; induction n as [|n IH]; intros prev s; simpl.
  - intros H. destruct (many_first_sound _ _ _ _ H) as (a & b & E & Fa & K).
    exists a, b. repeat split; auto. lia.
  - destruct s as [|c s]; [discriminate |].
    destruct (f c) eqn:Fc; [| discriminate].
    intros H. destruct (IH _ _ H) as (a & b & -> & L & Fa & K).
    exists (c :: a), b. simpl. rewrite Fc, Fa. repeat split; auto. lia.
Qed.

End FirstFacts.

(** Whatever way a pattern is first matched, the match is a beginning of
    the text and is as long as the pattern needs. *)
Lemma first_run_sound {X : Type} (r : regex) :
  forall (k : option N -> pystr -> option X) prev s x,
    Extractor.first_run r k prev s = Some x ->
    exists a b, s = a ++ b /\ min_len r <= length a
                /\ k (walk prev a) b = Some x.
Proof.
  induction r as [l | f | | r1 IH1 r2 IH2 | r1 IH1 r2 IH2 | r IH | n f];
    intros k prev s x; simpl.
  - intros H. destruct (eat_first_sound _ _ _ _ _ H) as (b & -> & K).
    exists l, b. auto.
  - destruct s as [|c s]; [discriminate |].
    destruct (f c); [| discriminate].
    intros H. exists [c], s. simpl. auto.
  - destruct (at_boundary prev s); [| discriminate].
    intros H. exists [], s. simpl. auto with arith.
  - intros H. destruct (IH1 _ _ _ _ H) as (a & b & -> & L1 & K).
    destruct (IH2 _ _ _ _ K) as (a' & b' & -> & L2 & K').
    exists (a ++ a'), b'. rewrite <- app_assoc, length_app, <- walk_app.
    repeat split; auto. lia.
  - destruct (Extractor.first_run r1 k prev s) as [y|] eqn:E.
    + intros H. injection H as ->.
      destruct (IH1 _ _ _ _ E) as (a & b & -> & L & K).
      exists a, b. repeat split; auto. lia.
    + intros H. destruct (IH2 _ _ _ _ H) as (a & b & -> & L & K).
      exists a, b. repeat split; auto. lia.
  - destruct (Extractor.first_run r k prev s) as [y|] eqn:E.
    + intros H. injection H as ->.
      destruct (IH _ _ _ _ E) as (a & b & -> & L & K).
      exists a, b. repeat split; auto. lia.
    + intros H. exists [], s. simpl. auto with arith.
  - intros H.
    destruct (at_least_first_sound _ _ _ _ _ _ H) as (a & b & -> & L & _ & K).
    exists a, b. auto.
Qed.

Lemma firstn_prefix {A : Type} (a b : list A) :
  firstn (length (a ++ b) - length b) (a ++ b) = a.
Proof.
  rewrite length_app.
  replace (length a + length b - length b) with (length a + 0) by lia.
  rewrite firstn_app_2. simpl. apply app_nil_r.
Qed.

(** What [EMAIL_REGEX] first matches at a position is a valid address,
    and the text goes on right after it. *)
Lemma email_match_sound (prev : option N) (s thing : pystr)
  (p : option N) (rest : pystr) :
  Extractor.email_match prev s = Some (thing, p, rest) ->
  s = thing ++ rest /\ valid thing.
Proof.
  unfold Extractor.email_match.
  set (k := fun (p0 : option N) (rest0 : pystr) =>
              Some (firstn (length s - length rest0) s, p0, rest0)).
  change (Extractor.first_run EMAIL_REGEX k prev s)
    with (Extractor.at_least_first
            (Extractor.eat_first
               (Extractor.at_least_first
                  (Extractor.eat_first
                     (Extractor.at_least_first k 2 letter_ic) [dot])
                  1 host_class)
               [at_sign])
            1 local_class prev s).
  intros H.
  apply at_least_first_sound in H. destruct H as (l & b1 & E1 & Hl & Fl & H).
  apply eat_first_sound in H. destruct H as (b2 & -> & H).
  apply at_least_first_sound in H. destruct H as (h & b3 & -> & Hh & Fh & H).
  apply eat_first_sound in H. destruct H as (b4 & -> & H).
  apply at_least_first_sound in H. destruct H as (t & b5 & -> & Ht & Ft & H).
  unfold k in H. clear k. injection H as T _ R.
  assert (E : s = (l ++ [at_sign] ++ h ++ [dot] ++ t) ++ b5).
  { rewrite E1. rewrite <- !app_assoc. reflexivity. }
  rewrite E in T. rewrite firstn_prefix in T. subst thing rest.
  split; [exact E |].
  assert (Nl : l <> []) by (intros ->; simpl in Hl; lia).
  assert (Nh : h <> []) by (intros ->; simpl in Hh; lia).
  exists l, h, t.
  split; [reflexivity |]. split; [exact Nl |]. split; [exact Fl |].
  split; [exact Nh |]. split; [exact Fh |]. split; [exact Ht | exact Ft].
Qed.

Lemma letter_ic_iff (c : N) :
  letter_ic c = true
  <-> ((65 <= c <= 90) \/ (97 <= c <= 122) \/ c = 304 \/ c = 305
       \/ c = 383 \/ c = 8490)%N.
Proof.
  unfold letter_ic, between.
  rewrite !orb_true_iff, !andb_true_iff, !N.leb_le, !N.eqb_eq. tauto.
Qed.

Lemma letter_not_space (c : N) : letter_ic c = true -> is_space c = false.
Proof.
  intros H. apply letter_ic_iff in H.
  destruct (is_space c) eqn:S; [| reflexivity].
  apply is_space_iff in S. lia.
Qed.

Lemma local_not_space (c : N) : local_class c = true -> is_space c = false.
Proof.
  unfold local_class, digit09, between.
  rewrite !orb_true_iff, !andb_true_iff, !N.leb_le, !N.eqb_eq.
  intros H.
  destruct (is_space c) eqn:S; [| reflexivity].
  apply is_space_iff in S.
  destruct H as [[[[[[H | H] | H] | H] | H] | H] | H];
    try (apply letter_ic_iff in H); lia.
Qed.

Lemma lstrip_fixed (c : N) (t : pystr) :
  is_space c = false -> lstrip (c :: t) = c :: t.
Proof. intros H. simpl. rewrite H. reflexivity. Qed.

(** A valid address has no white space at its ends. *)
Lemma valid_strip (e : pystr) : valid e -> strip e = e.
Proof.
  intros (l & h & t & -> & Hl & Fl & _ & _ & Ht & Ft).
  unfold strip.
  destruct l as [|c l]; [congruence |].
  simpl in Fl. apply andb_true_iff in Fl. destruct Fl as [Fc _].
  simpl app. rewrite (lstrip_fixed c _ (local_not_space c Fc)).
  unfold rstrip.
  destruct (rev t) as [|z rt] eqn:R.
  { apply (f_equal (@length N)) in R. rewrite length_rev in R.
    simpl in R. lia. }
  assert (Fz : letter_ic z = true).
  { rewrite forallb_forall in Ft. apply Ft. apply in_rev.
    rewrite R. left. reflexivity. }
  set (e := c :: l ++ at_sign :: h ++ dot :: t).
  assert (Hrev : exists w, rev e = z :: w).
  { exists (rt ++ rev (c :: l ++ at_sign :: h ++ [dot])).
    replace e with ((c :: l ++ at_sign :: h ++ [dot]) ++ t).
    - rewrite rev_app_distr, R. reflexivity.
    - unfold e. simpl. rewrite <- !app_assoc. simpl.
      rewrite <- !app_assoc. reflexivity. }
  destruct Hrev as (w & Hw). rewrite Hw.
  rewrite (lstrip_fixed z w (letter_not_space z Fz)).
  rewrite <- Hw. apply rev_involutive.
Qed.

Lemma email_match_consumes : consumes Extractor.email_match.
Proof.
  intros prev s thing p rest H.
  destruct (email_match_sound _ _ _ _ _ H) as [-> (l & h & t & -> & Hl & _)].
  rewrite !length_app. destruct l; [congruence | simpl; lia].
Qed.

Lemma mailto_match_consumes : consumes Extractor.mailto_match.
Proof.
  intros prev s thing p rest H. unfold Extractor.mailto_match in H.
  apply first_run_sound in H. destruct H as (a & b & -> & L & H).
  apply first_run_sound in H. destruct H as (a2 & b2 & -> & _ & H).
  apply first_run_sound in H. destruct H as (a3 & b3 & -> & _ & H).
  injection H as _ _ <-.
  change (min_len Extractor.MAILTO_HEAD) with 13 in L.
  rewrite !length_app. lia.
Qed.

(** With a way of matching that moves on, more fuel than the length of
    the text changes nothing. *)
Lemma findall_enough_fuel (m : option N -> pystr -> option Extractor.found) :
  consumes m ->
  forall fuel n prev s,
    length s < fuel ->
    Extractor.findall_from (fuel + n) m prev s
    = Extractor.findall_from fuel m prev s.
Proof.
  intros Hm. induction fuel as [|fuel IH]; intros n prev s L; [lia |].
  simpl. destruct (m prev s) as [[[thing p] rest]|] eqn:E.
  - apply Hm in E. rewrite IH; [reflexivity | lia].
  - destruct s as [|c s]; [reflexivity |]. apply IH. simpl in L. lia.
Qed.

Lemma findall_email_valid (fuel : nat) :
  forall prev s,
    Forall valid (Extractor.findall_from fuel Extractor.email_match prev s).
Proof.
  induction fuel as [|fuel IH]; intros prev s; simpl; [constructor |].
  destruct (Extractor.email_match prev s) as [[[thing p] rest]|] eqn:E.
  - constructor; [| apply IH].
    apply (email_match_sound _ _ _ _ _ E).
  - destruct s; [constructor | apply IH].
Qed.

Lemma fold_add_mailto (links : list pystr) :
  forall emails,
    NoDup emails ->
    Forall (fun e => fullmatch EMAIL_REGEX e = true) emails ->
    NoDup (fold_left Extractor.add_mailto links emails)
    /\ Forall (fun e => fullmatch EMAIL_REGEX e = true)
              (fold_left Extractor.add_mailto links emails).
Proof.
  induction links as [|x links IH]; intros emails N F; simpl; [auto |].
  apply IH; unfold Extractor.add_mailto;
    destruct (fullmatch EMAIL_REGEX _) eqn:E; auto.
  - apply set_add_NoDup. exact N.
  - apply set_add_Forall; assumption.
Qed.

Lemma fold_add_match (found : list pystr) :
  forall emails,
    Forall valid found ->
    NoDup emails ->
    Forall (fun e => fullmatch EMAIL_REGEX e = true) emails ->
    NoDup (fold_left Extractor.add_match found emails)
    /\ Forall (fun e => fullmatch EMAIL_REGEX e = true)
              (fold_left Extractor.add_match found emails).
Proof.
  induction found as [|x found IH]; intros emails V N F; simpl; [auto |].
  inversion V as [|? ? Vx V']; subst.
  apply IH; [exact V' | |]; unfold Extractor.add_match;
    rewrite (valid_strip x Vx).
  - apply set_add_NoDup. exact N.
  - apply set_add_Forall; [exact F |].
    apply fullmatch_EMAIL_REGEX. exact Vx.
Qed.

Lemma extract_emails_facts (html : pystr) :
  NoDup (Extractor.extract_emails_from_html html)
  /\ Forall (fun e => fullmatch EMAIL_REGEX e = true)
            (Extractor.extract_emails_from_html html)
  /\ (forall e, In e (Extractor.findall Extractor.email_match html) ->
                html <> []
                /\ In e (Extractor.extract_emails_from_html html))
  /\ (forall n,
        Extractor.findall_from (S (length html) + n)
          Extractor.email_match None html
        = Extractor.findall Extractor.email_match html)
  /\ (forall n,
        Extractor.findall_from (S (length html) + n)
          Extractor.mailto_match None html
        = Extractor.findall Extractor.mailto_match html).
Proof.
  assert (V : Forall valid (Extractor.findall Extractor.email_match html))
    by apply findall_email_valid.
  unfold Extractor.extract_emails_from_html.
  destruct html as [|c html].
  - simpl. repeat split; try constructor; try contradiction.
  - set (page := c :: html) in *. cbn [truthy negb].
    destruct (fold_add_mailto (Extractor.findall Extractor.mailto_match page)
                [] (NoDup_nil _) (Forall_nil _)) as (N1 & F1).
    destruct (fold_add_match (Extractor.findall Extractor.email_match page)
                _ V N1 F1) as (N2 & F2).
    split; [exact N2 |]. split; [exact F2 |]. split; [| split].
    + intros e He. split; [discriminate |].
      generalize (fold_left Extractor.add_mailto
                    (Extractor.findall Extractor.mailto_match page) []).
      revert V He.
      generalize (Extractor.findall Extractor.email_match page) as found.
      induction found as [|x found IH]; intros V [] emails.
      * subst x. simpl. inversion V as [|? ? Ve _]; subst.
        unfold Extractor.add_match at 2. rewrite (valid_strip e Ve).
        clear - e. revert emails.
        assert (K : forall l acc, In e acc
                      -> In e (fold_left Extractor.add_match l acc)).
        { induction l as [|y l IHl]; intros acc H; simpl; [exact H |].
          apply IHl. unfold Extractor.add_match. apply set_add_In. auto. }
        intros emails. apply K. apply set_add_In. auto.
      * simpl. inversion V; subst. apply IH; assumption.
    + intros n. apply findall_enough_fuel;
        [apply email_match_consumes | lia].
    + intros n. apply findall_enough_fuel;
        [apply mailto_match_consumes | lia].
Qed.

(** The addresses extracted from a page are all valid addresses, none
    comes twice, and each one found in the text is kept as it stands;
    the two searches end within the fuel given, whatever the page. *)
Theorem extract_emails_valid (html : pystr) :
  NoDup (Extractor.extract_emails_from_html html)
  /\ Forall (fun e => fullmatch EMAIL_REGEX e = true)
            (Extractor.extract_emails_from_html html)
  /\ (forall e, In e (Extractor.findall Extractor.email_match html) ->
                html <> []
                /\ In e (Extractor.extract_emails_from_html html))
  /\ (forall n,
        Extractor.findall_from (S (length html) + n)
          Extractor.email_match None html
        = Extractor.findall Extractor.email_match html)
  /\ (forall n,
        Extractor.findall_from (S (length html) + n)
          Extractor.mailto_match None html
        = Extractor.findall Extractor.mailto_match html).
Proof. apply extract_emails_facts. Qed.

(* ================================================================== *)
(** ** Further properties: nothing that matches is missed *)
(* ================================================================== *)

Section FirstAgrees.

Context {X : Type}.
Variable ko : option N -> pystr -> option X.
Variable kb : option N -> pystr -> bool.
Hypothesis agree : forall p s, kb p s = is_some (ko p s).

Lemma eat_first_agrees (l : pystr) (prev : option N) (s : pystr) :
  eat kb l prev s = is_some (Extractor.eat_first ko l prev s).
Proof.
  revert prev s; induction l as [|x l IH]; intros prev s; simpl;
    [apply agree |].
  destruct s as [|c s]; [reflexivity |].
  destruct (N.eqb c x); simpl; [apply IH | reflexivity].
Qed.

Lemma many_first_agrees (f : N -> bool) (prev : option N) (s : pystr) :
  many kb f prev s = is_some (Extractor.many_first ko f prev s).
Proof.
  revert prev; induction s as [|c s IH]; intros prev; simpl.
  - rewrite orb_false_r. apply agree.
  - rewrite IH, agree. destruct (f c); simpl.
    + destruct (Extractor.many_first ko f (Some c) s); simpl;
        [apply orb_true_r | apply orb_false_r].
    + apply orb_false_r.
Qed.

Lemma at_least_first_agrees (n : nat) (f : N -> bool) (prev : option N)
  (s : pystr) :
  at_least kb n f prev s = is_some (Extractor.at_least_first ko n f prev s).
Proof.
  revert prev s; induction n as [|n IH]; intros prev s; simpl;
    [apply many_first_agrees |].
  destruct s as [|c s]; [reflexivity |].
  destruct (f c); simpl; [apply IH | reflexivity].
Qed.

End FirstAgrees.

(** Looking for the first way to match finds one exactly when there is
    a way to match. *)
Lemma first_run_agrees {X : Type} (r : regex) :
  forall (ko : option N -> pystr -> option X)
         (kb : option N -> pystr -> bool),
    (forall p s, kb p s = is_some (ko p s)) ->
    forall prev s, run r kb prev s = is_some (Extractor.first_run r ko prev s).
Proof.
  induction r as [l | f | | r1 IH1 r2 IH2 | r1 IH1 r2 IH2 | r IH | n f];
    intros ko kb H prev s; simpl.
  - apply eat_first_agrees. exact H.
  - destruct s as [|c s]; [reflexivity |].
    destruct (f c); simpl; [apply H | reflexivity].
  - destruct (at_boundary prev s); simpl; [apply H | reflexivity].
  - apply IH1. intros p t. apply IH2. exact H.
  - rewrite (IH1 ko kb H), (IH2 ko kb H).
    destruct (Extractor.first_run r1 ko prev s); reflexivity.
  - rewrite (IH ko kb H), H.
    destruct (Extractor.first_run r ko prev s); reflexivity.
  - apply at_least_first_agrees. exact H.
Qed.

Lemma findall_email_none (fuel : nat) :
  forall prev s,
    length s < fuel ->
    (Extractor.findall_from fuel Extractor.email_match prev s = []
     <-> search_from EMAIL_REGEX prev s = false).
Proof.
  induction fuel as [|fuel IH]; intros prev s L; [lia |].
  assert (A : run EMAIL_REGEX anything prev s
              = is_some (Extractor.email_match prev s)).
  { unfold Extractor.email_match. apply first_run_agrees.
    intros p t. reflexivity. }
  cbn [Extractor.findall_from].
  destruct s as [|c s].
  - cbn [search_from]. rewrite A, orb_false_r.
    destruct (Extractor.email_match prev []) as [[[thing p] rest]|]; simpl;
      split; congruence.
  - cbn [search_from]. rewrite A.
    destruct (Extractor.email_match prev (c :: s)) as [[[thing p] rest]|];
      simpl.
    + split; congruence.
    + apply IH. simpl in L. lia.
Qed.

Lemma occurs_in_trans (a b c : pystr) :
  occurs_in a b -> occurs_in b c -> occurs_in a c.
Proof.
  intros (p1 & q1 & ->) (p2 & q2 & ->).
  exists (p2 ++ p1), (q1 ++ q2). rewrite <- !app_assoc. reflexivity.
Qed.

Lemma occurs_in_suffix (a pre s : pystr) :
  occurs_in a s -> occurs_in a (pre ++ s).
Proof.
  intros (p & q & ->). exists (pre ++ p), q.
  rewrite <- !app_assoc. reflexivity.
Qed.

Lemma lstrip_suffix (s : pystr) : exists pre, s = pre ++ lstrip s.
Proof.
  induction s as [|c s (pre & IH)]; simpl; [exists []; reflexivity |].
  destruct (is_space c).
  - exists (c :: pre). simpl. rewrite <- IH. reflexivity.
  - exists []. reflexivity.
Qed.

Lemma rstrip_prefix (s : pystr) : exists post, s = rstrip s ++ post.
Proof.
  unfold rstrip. destruct (lstrip_suffix (rev s)) as (pre & E).
  exists (rev pre). rewrite <- rev_app_distr, <- E, rev_involutive.
  reflexivity.
Qed.

Lemma strip_occurs (s : pystr) : occurs_in (strip s) s.
Proof.
  unfold strip. destruct (lstrip_suffix s) as (pre & E).
  destruct (rstrip_prefix (lstrip s)) as (post & F).
  exists pre, post. rewrite <- F. exact E.
Qed.

Lemma split_hd_prefix (sep : N) (g : pystr) :
  exists post, g = hd [] (split sep g) ++ post.
Proof.
  induction g as [|c g (post & IH)]; simpl; [exists []; reflexivity |].
  destruct (c =? sep)%N; [exists (c :: g); reflexivity |].
  destruct (split sep g) as [|piece rest]; simpl in *.
  - exists g. reflexivity.
  - exists post. rewrite <- IH. reflexivity.
Qed.

(** Where a match of either pattern stands: in the text consumed, before
    what is left. *)
Lemma mailto_match_place (prev : option N) (s thing : pystr)
  (p : option N) (rest : pystr) :
  Extractor.mailto_match prev s = Some (thing, p, rest) ->
  exists used, s = used ++ rest /\ occurs_in thing used.
Proof.
  intros H. unfold Extractor.mailto_match in H.
  apply first_run_sound in H. destruct H as (a & s1 & -> & _ & H).
  apply first_run_sound in H. destruct H as (a2 & s2 & -> & _ & H).
  apply first_run_sound in H. destruct H as (a3 & s3 & -> & _ & H).
  injection H as T _ R. subst rest.
  rewrite firstn_prefix in T. subst thing.
  exists (a ++ a2 ++ a3). split.
  - rewrite <- !app_assoc. reflexivity.
  - exists a, a3. reflexivity.
Qed.

Lemma email_match_place (prev : option N) (s thing : pystr)
  (p : option N) (rest : pystr) :
  Extractor.email_match prev s = Some (thing, p, rest) ->
  exists used, s = used ++ rest /\ occurs_in thing used.
Proof.
  intros H. apply email_match_sound in H. destruct H as [-> _].
  exists thing. split; [reflexivity |].
  exists [], []. rewrite app_nil_r. reflexivity.
Qed.

Lemma findall_occur (m : option N -> pystr -> option Extractor.found) :
  (forall prev s thing p rest,
      m prev s = Some (thing, p, rest) ->
      exists used, s = used ++ rest /\ occurs_in thing used) ->
  forall fuel prev s,
    Forall (fun thing => occurs_in thing s)
           (Extractor.findall_from fuel m prev s).
Proof.
  intros Hm. induction fuel as [|fuel IH]; intros prev s; simpl;
    [constructor |].
  destruct (m prev s) as [[[thing p] rest]|] eqn:E.
  - destruct (Hm _ _ _ _ _ E) as (used & -> & O). constructor.
    + destruct O as (x & y & ->). exists x, (y ++ rest).
      rewrite <- !app_assoc. reflexivity.
    + apply (Forall_impl _ (fun a H => occurs_in_suffix a used rest H)).
      apply IH.
  - destruct s as [|c s]; [constructor |].
    apply (Forall_impl _ (fun a H => occurs_in_suffix a [c] s H)).
    apply IH.
Qed.

Lemma set_add_keeps (P : pystr -> Prop) (xs : list pystr) (x : pystr) :
  Forall P xs -> P x -> Forall P (set_add xs x).
Proof. apply set_add_Forall. Qed.

Lemma extract_occur (html : pystr) :
  Forall (fun e => occurs_in e html) (Extractor.extract_emails_from_html html).
Proof.
  unfold Extractor.extract_emails_from_html.
  destruct (negb (truthy html)); [constructor |].
  assert (A : forall links acc,
             Forall (fun g => occurs_in g html) links ->
             Forall (fun e => occurs_in e html) acc ->
             Forall (fun e => occurs_in e html)
                    (fold_left Extractor.add_mailto links acc)).
  { induction links as [|g links IH]; intros acc Hl Ha; simpl; [exact Ha |].
    inversion Hl as [|? ? Hg Hl']; subst. apply IH; [exact Hl' |].
    unfold Extractor.add_mailto.
    destruct (fullmatch EMAIL_REGEX _); [| exact Ha].
    apply set_add_keeps; [exact Ha |].
    apply (occurs_in_trans _ (hd [] (split Extractor.question_mark g)));
      [apply strip_occurs |].
    apply (occurs_in_trans _ g); [| exact Hg].
    destruct (split_hd_prefix Extractor.question_mark g) as (post & E).
    exists [], post. exact E. }
  assert (B : forall found acc,
             Forall (fun g => occurs_in g html) found ->
             Forall (fun e => occurs_in e html) acc ->
             Forall (fun e => occurs_in e html)
                    (fold_left Extractor.add_match found acc)).
  { induction found as [|g found IH]; intros acc Hl Ha; simpl; [exact Ha |].
    inversion Hl as [|? ? Hg Hl']; subst. apply IH; [exact Hl' |].
    unfold Extractor.add_match. apply set_add_keeps; [exact Ha |].
    apply (occurs_in_trans _ g); [apply strip_occurs | exact Hg]. }
  apply B; [apply (findall_occur _ email_match_place) |].
  apply A; [apply (findall_occur _ mailto_match_place) | constructor].
Qed.

(** No address is made up: each one extracted stands in the page. *)
Theorem extract_only_what_is_there (html : pystr) :
  Forall (fun e => occurs_in e html) (Extractor.extract_emails_from_html html).
Proof. apply extract_occur. Qed.

Lemma search_from_later (r : regex) (pre s : pystr) :
  (forall prev, run r anything prev s = true) ->
  forall prev, search_from r prev (pre ++ s) = true.
Proof.
  intros H. induction pre as [|c pre IH]; intros prev; simpl.
  - destruct s; simpl; rewrite H; reflexivity.
  - rewrite IH. apply orb_true_r.
Qed.

Lemma valid_runs (e after : pystr) (prev : option N) :
  valid e -> run EMAIL_REGEX anything prev (e ++ after) = true.
Proof.
  intros (l & h & t & -> & Hl & Fl & Hh & Fh & Ht & Ft).
  change (run EMAIL_REGEX anything prev
            ((l ++ [at_sign] ++ h ++ [dot] ++ t) ++ after))
    with (at_least
            (eat (at_least (eat (at_least anything 2 letter_ic) [dot])
                           1 host_class)
                 [at_sign])
            1 local_class prev
            ((l ++ [at_sign] ++ h ++ [dot] ++ t) ++ after)).
  apply at_least_spec.
  exists l, ([at_sign] ++ h ++ [dot] ++ t ++ after).
  split; [rewrite <- !app_assoc; reflexivity |].
  split; [destruct l; [congruence | simpl; lia] |].
  split; [exact Fl |].
  apply eat_spec. exists (h ++ [dot] ++ t ++ after). split; [reflexivity |].
  apply at_least_spec. exists h, ([dot] ++ t ++ after).
  split; [reflexivity |].
  split; [destruct h; [congruence | simpl; lia] |].
  split; [exact Fh |].
  apply eat_spec. exists (t ++ after). split; [reflexivity |].
  apply at_least_spec. exists t, after. auto.
Qed.

(** A page gives at least one address exactly when the address pattern
    occurs somewhere in it: nothing that matches is missed, and nothing
    is found where the pattern does not occur. *)
Theorem extract_finds_when_present (html : pystr) :
  search EMAIL_REGEX html = true
  <-> Extractor.extract_emails_from_html html <> [].
Proof.
  pose proof (findall_email_none (S (length html)) None html
                (Nat.lt_succ_diag_r _)) as F.
  fold (Extractor.findall Extractor.email_match html) in F.
  fold (search EMAIL_REGEX html) in F.
  pose proof (extract_emails_facts html) as (_ & V & K & _).
  split.
  - intros S.
    destruct (Extractor.findall Extractor.email_match html) as [|e l] eqn:E.
    + destruct F as [F _]. rewrite F in S; [discriminate | reflexivity].
    + destruct (K e (or_introl eq_refl)) as [_ He].
      intros Z. rewrite Z in He. destruct He.
  - intros NE.
    destruct (Extractor.extract_emails_from_html html) as [|e l] eqn:X;
      [congruence |].
    pose proof (extract_occur html) as O. rewrite X in O.
    inversion O as [|? ? (pre & post & Oe) _]; subst.
    inversion V as [|? ? Ve _]; subst.
    apply fullmatch_EMAIL_REGEX in Ve.
    apply search_from_later. intros prev. apply valid_runs. exact Ve.
Qed.

(* ================================================================== *)
(** ** Further properties: a place is handled once *)
(* ================================================================== *)

Lemma process_item_records (W : world) (q : pystr) (st : state)
  (pid : pystr) :
  truthy pid = true ->
  in_set pid (seen_places (process_item W q st (place pid))) = true.
Proof.
  intros T. unfold process_item, place. cbn [place_id]. rewrite T.
  cbn [negb orb].
  destruct (in_set pid (seen_places st)) eqn:S; [exact S |].
  destruct (place_details W pid) as [det|].
  - match goal with
    | |- context [enrich W ?s ?site] =>
        pose proof (enrich_result W s site) as K;
        destruct (enrich W s site) as [[e t] st']
    end.
    destruct K as (_ & _ & P & _). cbn [seen_places] in *. rewrite P.
    apply in_set_set_add_same.
  - cbn [seen_places]. apply in_set_set_add_same.
Qed.

(** A place that comes back, under the same query or another, changes
    nothing: no second row, no second crawl. *)
Theorem place_handled_once (W : world) (q q' : pystr) (st : state)
  (pid : pystr) :
  process_item W q' (process_item W q st (place pid)) (place pid)
  = process_item W q st (place pid).
Proof.
  destruct (truthy pid) eqn:T.
  - pose proof (process_item_records W q st pid T) as R.
    set (st1 := process_item W q st (place pid)) in *.
    unfold process_item at 1, place. cbn [place_id].
    rewrite T, R. reflexivity.
  - assert (E : forall q0 st0, process_item W q0 st0 (place pid) = st0).
    { intros q0 st0. unfold process_item, place. cbn [place_id].
      rewrite T. reflexivity. }
    rewrite !E. reflexivity.
Qed.
